(** * Pixlim: the image records, their compression batches and their export

    A shallow embedding of [app/page.tsx] (the [HomePage] component and its
    [ImageCard]) and of [lib/image-processing.ts].  React state becomes an
    explicit state record, every asynchronous completion becomes a labelled
    step, and the browser and the two libraries ([browser-image-compression],
    [JSZip]) appear only through the values they hand back. *)

From Stdlib Require Import ZArith Lia Ascii String.
From Stdlib Require PrimFloat Uint63.
From stdpp Require Import base decidable option list strings pretty gmap.

Open Scope string_scope.
Open Scope Z_scope.

(** ** Browser values *)

(** A [Blob] is its bytes; [blob.size] is their number. *)
Definition Blob := list Z.

Definition blob_size (b : Blob) : Z := Z.of_nat (length b).

(** A [File]: the three fields the page reads. *)
Module File.
Record t := mk {
  name : string;
  type : string;
  size : Z
}.
End File.

(** [s.startsWith(p)] *)
Definition startsWith (p s : string) : bool := String.prefix p s.

(** ** lib/image-processing.ts *)

Module ImageProcessing.

(** What [imageCompression(file, options)] followed by
    [imageCompression.getDataUrlFromFile] settles to: a blob with its data
    URL, or a thrown value rendered as a message. *)
Inductive Settled :=
| Fulfilled (blob : Blob) (dataUrl : string)
| Thrown (message : string).

(** What [compressImage] settles to: its [catch] block rethrows every
    failure as an [Error] whose message names the file. *)
Inductive CompressResult :=
| Resolved (blob : Blob) (dataUrl : string)
| Rejected (message : string).

Definition compressImage (file : File.t) (lib : Settled) : CompressResult :=
  match lib with
  | Fulfilled blob dataUrl => Resolved blob dataUrl
  | Thrown m =>
      Rejected ("Failed to compress image: " +:+ File.name file +:+ ". " +:+ m)
  end.

(** The part of a [JSZip] object that [createZip] uses.  [generateAsync]
    answers [None] when its promise rejects. *)
Class JSZip (Zip : Type) := {
  newZip : Zip;
  zipFile : string -> Blob -> Zip -> Zip;
  generateAsync : Zip -> option Blob
}.

Definition createZip {Zip} `{JSZip Zip} (files : list (string * Blob))
  : option Blob :=
  generateAsync (fold_left (fun zip f => zipFile (fst f) (snd f) zip) files newZip).

Definition getFileExtension (mimeType : string) : string :=
  if String.eqb mimeType "image/jpeg" then "jpg"
  else if String.eqb mimeType "image/png" then "png"
  else if String.eqb mimeType "image/webp" then "webp"
  else "bin".

End ImageProcessing.

(** ** The file name of a download *)

(** A character the class [[^/.]] accepts. *)
Definition ext_char (c : ascii) : bool :=
  negb (Ascii.eqb c "/") && negb (Ascii.eqb c ".").

Fixpoint all_ext_chars (s : string) : bool :=
  match s with
  | EmptyString => true
  | String c r => ext_char c && all_ext_chars r
  end.

(** Whether [/\.[^/.]+$/] matches with its first character at the head of
    [s]: a dot, then one or more accepted characters, then the end. *)
Definition ext_matches_here (s : string) : bool :=
  match s with
  | String c (String _ _ as t) => Ascii.eqb c "." && all_ext_chars t
  | _ => false
  end.

(** [s.replace(/\.[^/.]+$/, "")]: the leftmost match runs to the end of the
    string, so replacing it by the empty string keeps what comes before. *)
Fixpoint removeExtension (s : string) : string :=
  if ext_matches_here s then EmptyString
  else match s with
       | EmptyString => EmptyString
       | String c r => String c (removeExtension r)
       end.

(** The template
    [`compressed_${file.name.replace(...)}.${getFileExtension(file.type)}`],
    written three times in the page. *)
Definition downloadName (file : File.t) : string :=
  "compressed_" +:+ removeExtension (File.name file) +:+ "." +:+
  ImageProcessing.getFileExtension (File.type file).

(** ** app/page.tsx: the records *)

Inductive Status := Pending | Compressing | Completed | Error.

#[global] Instance Status_eq_dec : EqDecision Status.
Proof. solve_decision. Defined.

(** [interface CompressedImage]; [null] and an absent [error] are [None]. *)
Module CompressedImage.
Record t := mk {
  id : string;
  file : File.t;
  originalUrl : string;
  originalSize : Z;
  compressedUrl : option string;
  compressedBlob : option Blob;
  compressedSize : option Z;
  status : Status;
  error : option string;
  quality : Z
}.
End CompressedImage.

Import CompressedImage (file, originalUrl, originalSize, compressedUrl,
  compressedBlob, compressedSize, status, error, quality).

Definition ids (l : list CompressedImage.t) : list string :=
  map CompressedImage.id l.

(** The MIME test written in [handleDrop] (twice) and [handleFileSelect]. *)
Definition accepted (f : File.t) : bool :=
  startsWith "image/jpeg" (File.type f) ||
  startsWith "image/png" (File.type f) ||
  startsWith "image/webp" (File.type f).

(** ** Intake: [handleDrop] and [handleFileSelect] *)

(** A [FileSystemEntry].  A directory is given by what its reader hands to
    the callbacks of successive [readEntries] calls: the browser delivers a
    directory's entries in one array or in several, and an emptied reader
    answers the empty array. *)
#[warnings="-register-all"] Inductive FileSystemEntry :=
| FileEntry (f : File.t)
| DirectoryEntry (reads : list (list FileSystemEntry)).

(** [processEntry]: a file entry is pushed when its type is accepted; for a
    directory, [createReader()] and one [readEntries] call, then the entries
    of that array in turn. *)
Fixpoint processEntry (entry : FileSystemEntry) : list File.t :=
  match entry with
  | FileEntry f => if accepted f then [f] else []
  | DirectoryEntry reads =>
      match reads with
      | [] => []
      | entries :: _ =>
          (fix each (l : list FileSystemEntry) : list File.t :=
             match l with
             | [] => []
             | subEntry :: l' => (processEntry subEntry ++ each l')%list
             end) entries
      end
  end.

(** Every file entry found anywhere under an entry, in reading order. *)
Fixpoint filesUnder (entry : FileSystemEntry) : list File.t :=
  match entry with
  | FileEntry f => [f]
  | DirectoryEntry reads =>
      (fix arrays (ls : list (list FileSystemEntry)) : list File.t :=
         match ls with
         | [] => []
         | entries :: ls' =>
             ((fix each (l : list FileSystemEntry) : list File.t :=
                match l with
                | [] => []
                | subEntry :: l' => (filesUnder subEntry ++ each l')%list
                end) entries ++ arrays ls')%list
         end) reads
  end.

(** Every directory under the entry hands over all it holds in the first
    array. *)
Fixpoint readAtOnce (entry : FileSystemEntry) : Prop :=
  match entry with
  | FileEntry _ => True
  | DirectoryEntry reads =>
      match reads with
      | [] => True
      | entries :: later =>
          (fix each (l : list FileSystemEntry) : Prop :=
             match l with
             | [] => True
             | subEntry :: l' => readAtOnce subEntry /\ each l'
             end) entries /\ concat later = []
      end
  end.

(** A [DataTransferItem]: its [kind], and what [webkitGetAsEntry()] and
    [getAsFile()] answer ([None] for [null]). *)
Record DataTransferItem := mkItem {
  kind : string;
  webkitGetAsEntry : option FileSystemEntry;
  getAsFile : option File.t
}.

(** The [files] array of [handleDrop] when its loop over the dropped items
    ends. *)
Definition droppedFiles (droppedItems : list DataTransferItem) : list File.t :=
  flat_map (fun item =>
    if String.eqb (kind item) "file" then
      match webkitGetAsEntry item with
      | Some entry => processEntry entry
      | None =>
          match getAsFile item with
          | Some file => if accepted file then [file] else []
          | None => []
          end
      end
    else []) droppedItems.

(** The [files] array of [handleFileSelect]. *)
Definition selectedFiles (files : list File.t) : list File.t :=
  List.filter accepted files.

(** One turn of the loop of [processFiles]: the file, the data URL that
    [readFileAsDataURL] resolved to, and the value of [Date.now()]. *)
Record FileRead := mkRead {
  readFile : File.t;
  readUrl : string;
  readNow : Z
}.

Definition newImage (compressionQuality : Z) (r : FileRead)
  : CompressedImage.t :=
  CompressedImage.mk
    (File.name (readFile r) +:+ "-" +:+ pretty (readNow r))
    (readFile r) (readUrl r) (File.size (readFile r))
    None None None Pending None compressionQuality.

Definition newImages (compressionQuality : Z) (reads : list FileRead)
  : list CompressedImage.t :=
  map (newImage compressionQuality) reads.

(** ** The compression batch: [compressAllImages] *)

(** The guard [img.status === "error" && img.quality === quality]: such a
    record is returned as it is, without a call of [compressImage]. *)
Definition skipped (quality : Z) (img : CompressedImage.t) : bool :=
  bool_decide (status img = Error) && (CompressedImage.quality img =? quality).

(** [{ ...i, status: "compressing", quality: quality }] *)
Definition asCompressing (quality : Z) (i : CompressedImage.t)
  : CompressedImage.t :=
  CompressedImage.mk (CompressedImage.id i) (file i) (originalUrl i)
    (originalSize i) (compressedUrl i) (compressedBlob i) (compressedSize i)
    Compressing (error i) quality.

(** The updater
    [prev.map((i) => (i.id === img.id ? { ...i, ... } : i))]. *)
Definition markCompressing (quality : Z) (img : CompressedImage.t)
    (prev : list CompressedImage.t) : list CompressedImage.t :=
  map (fun i =>
         if String.eqb (CompressedImage.id i) (CompressedImage.id img)
         then asCompressing quality i else i) prev.

(** [error.message || "Compression failed"] *)
Definition messageOr (message : string) : string :=
  if String.eqb message "" then "Compression failed" else message.

(** What the callback of [currentImages.map] returns for a record it did
    not skip, once [compressImage] has settled: the object of the [try]
    block or the object of the [catch] block. *)
Definition settle (quality : Z) (img : CompressedImage.t)
    (lib : ImageProcessing.Settled) : CompressedImage.t :=
  match ImageProcessing.compressImage (file img) lib with
  | ImageProcessing.Resolved blob dataUrl =>
      CompressedImage.mk (CompressedImage.id img) (file img) (originalUrl img)
        (originalSize img) (Some dataUrl) (Some blob) (Some (blob_size blob))
        Completed None quality
  | ImageProcessing.Rejected message =>
      CompressedImage.mk (CompressedImage.id img) (file img) (originalUrl img)
        (originalSize img) None None None
        Error (Some (messageOr message)) quality
  end.

(** A call of [compressAllImages] whose [Promise.all] has not resolved yet:
    its two arguments and, per element of [currentImages], what the mapped
    promise has resolved to ([None] while [compressImage] is running). *)
Record Batch := mkBatch {
  batchQuality : Z;
  currentImages : list CompressedImage.t;
  resolved : list (option CompressedImage.t)
}.

(** The synchronous part of [compressAllImages]: each callback runs up to
    its first [await], in the order of [currentImages]; a skipped record's
    promise resolves to the record, every other callback queues its updater
    and starts [compressImage]. *)
Definition startBatch (quality : Z) (current : list CompressedImage.t) : Batch :=
  mkBatch quality current
    (map (fun img => if skipped quality img then Some img else None) current).

Definition queuedUpdaters (quality : Z) (current prev : list CompressedImage.t)
  : list CompressedImage.t :=
  fold_left (fun st img =>
               if skipped quality img then st else markCompressing quality img st)
            current prev.

(** [Promise.all]: the array of results, once every promise has resolved. *)
Definition allResolved (b : Batch) : option (list CompressedImage.t) :=
  mapM (fun r : option CompressedImage.t => r) (resolved b).

(** ** The page state and its events *)

(** What a [handleDrop] or [handleFileSelect] call in progress holds of the
    render that created it: [images] and [compressionQuality]. *)
Record Closure := mkClosure {
  closureImages : list CompressedImage.t;
  closureQuality : Z
}.

Record State := mkState {
  images : list CompressedImage.t;
  compressionQuality : Z;
  intakes : list Closure;
  batches : list Batch
}.

Definition initial : State := mkState [] 80 [] [].

Inductive Event :=
| IntakeStarted
    (* handleDrop or handleFileSelect is entered *)
| FilesProcessed (k : nat) (reads : list FileRead)
    (* intake k: the loop of processFiles has ended; setImages and
       compressAllImages run *)
| QualityChanged (q : Z)
    (* onValueChange of the slider *)
| RemoveImage (rid : string)
    (* handleRemoveImage *)
| CompressSettled (b i : nat) (lib : ImageProcessing.Settled)
    (* batch b, element i: compressImage has settled *)
| BatchResolved (b : nat).
    (* batch b: Promise.all has resolved; setImages(updatedImages) *)

(** [setImages(updater)] and [setCompressionQuality(q)] *)
Definition setImages
    (updater : list CompressedImage.t -> list CompressedImage.t) (s : State)
  : State :=
  mkState (updater (images s)) (compressionQuality s) (intakes s) (batches s).

Definition setCompressionQuality (q : Z) (s : State) : State :=
  mkState (images s) q (intakes s) (batches s).

(** [compressAllImages(quality, currentImages)] up to its [await]: the
    updaters are queued and the batch is in flight. *)
Definition compressAllImages (quality : Z)
    (currentImages : list CompressedImage.t) (s : State) : State :=
  mkState (queuedUpdaters quality currentImages (images s))
    (compressionQuality s) (intakes s)
    (batches s ++ [startBatch quality currentImages])%list.

(** [processFiles(newFiles)] from the end of its loop on, in a call that
    holds the closure [c]. *)
Definition processFiles (c : Closure) (reads : list FileRead) (s : State)
  : State :=
  let newImages := newImages (closureQuality c) reads in
  compressAllImages (closureQuality c) (closureImages c ++ newImages)%list
    (setImages (fun prev => prev ++ newImages)%list s).

Definition handleRemoveImage (rid : string) (s : State) : State :=
  setImages (fun prev => filter (fun img => CompressedImage.id img <> rid) prev) s.

(** The effect on [[compressionQuality]], run after a render in which the
    quality changed. *)
Definition qualityEffect (s : State) : State :=
  if bool_decide (images s = []) then s
  else compressAllImages (compressionQuality s) (images s) s.

(** One event, [None] when it cannot happen in this state. *)
Definition step (e : Event) (s : State) : option State :=
  match e with
  | IntakeStarted =>
      Some (mkState (images s) (compressionQuality s)
              (intakes s ++ [mkClosure (images s) (compressionQuality s)])
              (batches s))
  | FilesProcessed k reads =>
      c ← intakes s !! k;
      Some (processFiles c reads
              (mkState (images s) (compressionQuality s)
                 (delete k (intakes s)) (batches s)))
  | QualityChanged q =>
      if q =? compressionQuality s then Some s
      else Some (qualityEffect (setCompressionQuality q s))
  | RemoveImage rid => Some (handleRemoveImage rid s)
  | CompressSettled b i lib =>
      B ← batches s !! b;
      img ← currentImages B !! i;
      r ← resolved B !! i;
      match r with
      | Some _ => None
      | None =>
          let B' := mkBatch (batchQuality B) (currentImages B)
                      (<[i := Some (settle (batchQuality B) img lib)]> (resolved B)) in
          Some (mkState (images s) (compressionQuality s) (intakes s)
                  (<[b := B']> (batches s)))
      end
  | BatchResolved b =>
      B ← batches s !! b;
      updatedImages ← allResolved B;
      Some (setImages (fun _ => updatedImages)
              (mkState (images s) (compressionQuality s) (intakes s)
                 (delete b (batches s))))
  end.

Fixpoint run (es : list Event) (s : State) : option State :=
  match es with
  | [] => Some s
  | e :: es' => s' ← step e s; run es' s'
  end.

Inductive reachable : State -> Prop :=
| reachable_initial : reachable initial
| reachable_step e s s' : reachable s -> step e s = Some s' -> reachable s'.

(** ** Export: [handleDownload] and [handleDownloadAll] *)

(** What the user is shown: a save of [content] under [filename] (the
    anchor with its [download] attribute, clicked, and its object URL
    revoked), or an [alert]. *)
Inductive Effect :=
| Download (filename : string) (content : Blob)
| Alert (message : string).

(** [handleDownload] of the [ImageCard] of [image]. *)
Definition handleDownload (image : CompressedImage.t) : list Effect :=
  match compressedBlob image with
  | Some blob => [Download (downloadName (file image)) blob]
  | None => []
  end.

(** [images.filter((img) => img.status === "completed" && img.compressedBlob)],
    each record with the blob that [img.compressedBlob!] reads later. *)
Definition completedImages (images : list CompressedImage.t)
  : list (CompressedImage.t * Blob) :=
  omap (fun img =>
          if bool_decide (status img = Completed)
          then blob ← compressedBlob img; Some (img, blob)
          else None) images.

Definition filesToZip (completed : list (CompressedImage.t * Blob))
  : list (string * Blob) :=
  map (fun c => (downloadName (file (fst c)), snd c)) completed.

Definition handleDownloadAll {Zip} `{ImageProcessing.JSZip Zip}
    (images : list CompressedImage.t) : list Effect :=
  let completed := completedImages images in
  if (length completed =? 0)%nat then []
  else if (length completed =? 1)%nat then
    match completed !! 0%nat with
    | Some (img, blob) => [Download (downloadName (file img)) blob]
    | None => []
    end
  else
    match ImageProcessing.createZip (Zip := Zip) (filesToZip completed) with
    | Some zipBlob => [Download "LitePress_Compressed_Images.zip" zipBlob]
    | None => [Alert "Failed to create ZIP file."]
    end.

(** ** Display: [formatBytes] *)

Definition sizes : list string := ["Bytes"; "KB"; "MB"; "GB"; "TB"].

(** The two functions of [Math] that [formatBytes] calls, on IEEE 754
    doubles (the kernel's primitive floats). *)
Module Math.
Import PrimFloat.
Import Uint63.

(** A byte count below 2^53 as a double: the conversion is exact. *)
Definition toDouble (n : Z) : float := of_uint63 (Uint63.of_Z n).

Definition ln2_hi : float := 0x1.62e42fee00000p-1%float.
Definition ln2_lo : float := 0x1.a39ef35793c76p-33%float.
Definition Lg1 : float := 0x1.5555555555593p-1%float.
Definition Lg2 : float := 0x1.999999997fa04p-2%float.
Definition Lg3 : float := 0x1.2492494229359p-2%float.
Definition Lg4 : float := 0x1.c71c51d8e78afp-3%float.
Definition Lg5 : float := 0x1.7466496cb03dep-3%float.
Definition Lg6 : float := 0x1.39a09d078c69fp-3%float.
Definition Lg7 : float := 0x1.2f112df3e5244p-3%float.

(** [Math.log(x)] for a finite [x >= 1], by the algorithm of fdlibm's
    [e_log.c], from which the engines' [Math.log] derives ([ieee754::log]
    in V8).  [hx] is the top twenty bits of the fraction of [x], [k] the
    binary exponent after [x] is brought into [sqrt(2)/2, sqrt(2)], and
    [f = x - 1] there; the result is [k*ln2 + log(1+f)], each operation
    rounded as IEEE 754 rounds it. *)
Definition log (x0 : float) : float :=
  let (m, e) := frshiftexp x0 in
  let hx := ((normfr_mantissa m >> 32) land 0xfffff)%uint63 in
  let i := ((hx + 0x95f64) land 0x100000)%uint63 in
  let x := if (i =? 0)%uint63 then (m + m)%float else m in
  let k := (e - 2102 + (i >> 20))%uint63 in
  let dk := of_uint63 k in
  let f := (x - 1)%float in
  if (0xfffff land (2 + hx) <? 3)%uint63 then
    if (f =? 0)%float then
      if (k =? 0)%uint63 then 0%float else (dk * ln2_hi + dk * ln2_lo)%float
    else
      let R := (f * f * (0.5 - 0x1.5555555555555p-2 * f))%float in
      if (k =? 0)%uint63 then (f - R)%float
      else (dk * ln2_hi - ((R - dk * ln2_lo) - f))%float
  else
    let s := (f / (2 + f))%float in
    let z := (s * s)%float in
    let w := (z * z)%float in
    let t1 := (w * (Lg2 + w * (Lg4 + w * Lg6)))%float in
    let t2 := (z * (Lg1 + w * (Lg3 + w * (Lg5 + w * Lg7))))%float in
    let R := (t2 + t1)%float in
    if ((0x6147a <=? hx) && (hx <=? 0x6b851))%uint63 then
      let hfsq := (0.5 * f * f)%float in
      if (k =? 0)%uint63 then (f - (hfsq - s * (hfsq + R)))%float
      else (dk * ln2_hi - ((hfsq - (s * (hfsq + R) + dk * ln2_lo)) - f))%float
    else
      if (k =? 0)%uint63 then (f - s * (f - R))%float
      else (dk * ln2_hi - ((s * (f - R) - dk * ln2_lo) - f))%float.

(** [Math.floor(q)] for a finite [q >= 0], as an integer: [q] is its 53-bit
    mantissa times a power of two. *)
Definition floor (q : float) : Z :=
  let (m, e) := frshiftexp q in
  let M := normfr_mantissa m in
  if (2154 <=? e)%uint63 then Z.shiftl (Uint63.to_Z M) (Uint63.to_Z e - 2154)
  else Uint63.to_Z (M >> (2154 - e))%uint63.

End Math.

(** [Math.floor(Math.log(bytes) / Math.log(k))], in doubles as the code
    computes it, for byte counts from 1 up to 2^53. *)
Definition floorLog (k bytes : Z) : Z :=
  Math.floor
    (PrimFloat.div (Math.log (Math.toDouble bytes)) (Math.log (Math.toDouble k))).

(** [(bytes / d).toFixed(2)] as a count of hundredths: the integer [n] with
    [n / 100] nearest to the quotient, the larger one on a tie.  The
    quotient itself is exact: [d] is a power of two. *)
Definition toFixed2 (bytes d : Z) : Z := (200 * bytes + d) / (2 * d).

(** [Number.parseFloat("w.ff") + ""]: the decimal without trailing zeros. *)
Definition hundredthsToString (n : Z) : string :=
  let whole := n / 100 in
  let frac := n mod 100 in
  if frac =? 0 then pretty whole
  else if frac mod 10 =? 0 then pretty whole +:+ "." +:+ pretty (frac / 10)
  else if frac <? 10 then pretty whole +:+ ".0" +:+ pretty frac
  else pretty whole +:+ "." +:+ pretty frac.

Definition formatBytes (bytes : option Z) : string :=
  match bytes with
  | None => "N/A"
  | Some bytes =>
      if bytes =? 0 then "0 Bytes"
      else if bytes <? 0 then "NaN undefined"
      else
        let k := 1024 in
        let i := floorLog k bytes in
        hundredthsToString (toFixed2 bytes (k ^ i)) +:+ " " +:+
        default "undefined" (sizes !! Z.to_nat i)
  end.

(** [p] on every integer from [lo] up to, and without, [lo + 2^d]. *)
Fixpoint checkRange (d : nat) (lo : Z) (p : Z -> bool) : bool :=
  match d with
  | O => p lo
  | S d' => checkRange d' lo p && checkRange d' (lo + 2 ^ Z.of_nat d') p
  end.

(** ** What holds of every record, batch and state *)

(** The fields of a record agree with its status, unless the status is
    [Compressing]. *)
Definition recordOk (r : CompressedImage.t) : Prop :=
  match status r with
  | Pending =>
      compressedUrl r = None /\ compressedBlob r = None /\
      compressedSize r = None /\ error r = None
  | Compressing => True
  | Completed =>
      is_Some (compressedUrl r) /\ is_Some (compressedBlob r) /\
      is_Some (compressedSize r) /\ error r = None
  | Error =>
      compressedUrl r = None /\ compressedBlob r = None /\
      compressedSize r = None /\ is_Some (error r)
  end.

(** What a mapped promise may hold for the element [img] of
    [currentImages]. *)
Definition resultOf (quality : Z) (img : CompressedImage.t)
    (r : option CompressedImage.t) : Prop :=
  match r with
  | None => skipped quality img = false
  | Some u =>
      (skipped quality img = true /\ u = img) \/
      (skipped quality img = false /\ exists lib, u = settle quality img lib)
  end.

Definition batchOk (B : Batch) : Prop :=
  Forall recordOk (currentImages B) /\
  Forall2 (resultOf (batchQuality B)) (currentImages B) (resolved B).

Definition stateOk (s : State) : Prop :=
  Forall recordOk (images s) /\
  Forall (fun c => Forall recordOk (closureImages c)) (intakes s) /\
  Forall batchOk (batches s).

(** ** Sample values *)

Definition jpeg (n : string) : File.t := File.mk n "image/jpeg" 1000.

(** The file [f] under [depth] directories. *)
Fixpoint nest (depth : nat) (f : File.t) : FileSystemEntry :=
  match depth with
  | O => FileEntry f
  | S d => DirectoryEntry [[nest d f]]
  end.

Definition sampleRead (n : string) (now : Z) : FileRead :=
  mkRead (jpeg n) "data:image/jpeg;base64,AAAA" now.

Definition sampleBlob : Blob := [255; 216; 255; 217].

Definition sampleFulfilled : ImageProcessing.Settled :=
  ImageProcessing.Fulfilled sampleBlob "data:image/jpeg;base64,/9j/2Q==".

Definition sampleThrown : ImageProcessing.Settled :=
  ImageProcessing.Thrown "The file given is not an image".

(** One file is taken in, and its compression succeeds (or fails) and is
    published. *)
Definition intakeOne : list Event :=
  [IntakeStarted; FilesProcessed 0 [sampleRead "a.jpg" 1700000000000]].

Definition oneCompleted : list Event :=
  (intakeOne ++ [CompressSettled 0 0 sampleFulfilled; BatchResolved 0])%list.

Definition oneFailed : list Event :=
  (intakeOne ++ [CompressSettled 0 0 sampleThrown; BatchResolved 0])%list.

Definition completedRecord : CompressedImage.t :=
  CompressedImage.mk "a.jpg-1700000000000" (jpeg "a.jpg")
    "data:image/jpeg;base64,AAAA" 1000
    (Some "data:image/jpeg;base64,/9j/2Q==") (Some sampleBlob) (Some 4)
    Completed None 80.

Definition failedRecord : CompressedImage.t :=
  CompressedImage.mk "a.jpg-1700000000000" (jpeg "a.jpg")
    "data:image/jpeg;base64,AAAA" 1000 None None None Error
    (Some "Failed to compress image: a.jpg. The file given is not an image")
    80.

(** Two files of one name, read within one millisecond. *)
Definition intakeTwins : list Event :=
  [IntakeStarted;
   FilesProcessed 0 [sampleRead "photo.jpg" 1700000000000;
                     sampleRead "photo.jpg" 1700000000000]].

(** Three files, the second one removed afterwards. *)
Definition intakeThree : list Event :=
  [IntakeStarted;
   FilesProcessed 0 [sampleRead "a.jpg" 1700000000000;
                     sampleRead "b.jpg" 1700000000001;
                     sampleRead "c.jpg" 1700000000002]].


(** An archive as the list of the entries put into it, for trying
    [handleDownloadAll] on examples. *)
Definition listZip : ImageProcessing.JSZip (list (string * Blob)) :=
  {| ImageProcessing.newZip := [];
     ImageProcessing.zipFile := fun n blob zip => (zip ++ [(n, blob)])%list;
     ImageProcessing.generateAsync := fun zip => Some (concat (map snd zip)) |}.

(** ** Further predicates on records and states *)

(** [P] holds of every record the state holds anywhere: in the collection,
    in the closures of running intakes, and in the arguments and results of
    running batches. *)
Definition everyRecord (P : CompressedImage.t -> Prop) (s : State) : Prop :=
  Forall P (images s) /\
  Forall (fun c => Forall P (closureImages c)) (intakes s) /\
  Forall (fun B => Forall P (currentImages B) /\
                   Forall (from_option P True) (resolved B)) (batches s).

(** The three payload fields go together: a blob comes with its size and a
    data URL, and no blob with neither. *)
Definition payloadAgrees (r : CompressedImage.t) : Prop :=
  match compressedBlob r with
  | Some blob =>
      compressedSize r = Some (blob_size blob) /\ is_Some (compressedUrl r)
  | None => compressedSize r = None /\ compressedUrl r = None
  end.

(** The fields written once, by [processFiles]. *)
Definition intakeFields (r : CompressedImage.t) : Prop :=
  originalSize r = File.size (file r) /\
  exists now : Z,
    CompressedImage.id r = File.name (file r) +:+ "-" +:+ pretty now.

(** An error message is the one [compressImage] throws. *)
Definition thrownMessage (r : CompressedImage.t) : Prop :=
  forall msg : string,
    error r = Some msg ->
    exists m : string,
      msg = "Failed to compress image: " +:+ File.name (file r) +:+ ". " +:+ m.

(** Two records that agree on every field but [status] and [quality]. *)
Definition sameButStatus (r r' : CompressedImage.t) : Prop :=
  CompressedImage.id r' = CompressedImage.id r /\
  file r' = file r /\ originalUrl r' = originalUrl r /\
  originalSize r' = originalSize r /\ compressedUrl r' = compressedUrl r /\
  compressedBlob r' = compressedBlob r /\
  compressedSize r' = compressedSize r /\ error r' = error r.

(** Whether a batch over [current] at [quality] runs [compressImage] on a
    record with the id of [p]. *)
Definition worksOn (quality : Z) (current : list CompressedImage.t)
    (p : CompressedImage.t) : bool :=
  existsb (fun img => negb (skipped quality img) &&
                      String.eqb (CompressedImage.id p) (CompressedImage.id img))
          current.

(** The events that settle, by [lib], every member of a batch that is
    still running; [slots] is the batch's [resolved] from position [i]
    on. *)
Fixpoint settleRest (b i : nat) (lib : nat -> ImageProcessing.Settled)
    (slots : list (option CompressedImage.t)) : list Event :=
  match slots with
  | [] => []
  | Some _ :: slots' => settleRest b (S i) lib slots'
  | None :: slots' => CompressSettled b i (lib i) :: settleRest b (S i) lib slots'
  end.

(** ** What the page shows *)

(** A string in a condition: the empty string counts as false. *)
Definition truthy (o : option string) : bool :=
  match o with
  | Some s => negb (String.eqb s "")
  | None => false
  end.

(** The right-hand thumbnail of an [ImageCard]. *)
Inductive Thumbnail :=
| CompressedThumbnail (src : string)
| CompressingNote
| ErrorNote (message : option string)
| PendingNote.

Definition compressedThumbnail (image : CompressedImage.t) : Thumbnail :=
  if bool_decide (status image = Completed) && truthy (compressedUrl image) then
    CompressedThumbnail
      (if truthy (compressedUrl image)
       then default "" (compressedUrl image) else "/placeholder.svg")
  else if bool_decide (status image = Compressing) then CompressingNote
  else if bool_decide (status image = Error) then ErrorNote (error image)
  else PendingNote.

(** [disabled={image.status !== "completed"}] on the card's button. *)
Definition downloadDisabled (image : CompressedImage.t) : bool :=
  negb (bool_decide (status image = Completed)).

(** [disabled={images.every((img) => img.status !== "completed")}] and the
    count in the label of the Download All button. *)
Definition downloadAllDisabled (images : list CompressedImage.t) : bool :=
  forallb (fun img => negb (bool_decide (status img = Completed))) images.

Definition downloadAllCount (images : list CompressedImage.t) : nat :=
  length (filter (fun img => status img = Completed) images).

(** ** public/service-worker.js *)

Module ServiceWorker.

Definition CACHE_NAME : string := "litepress-cache-v1".

(** The fields of a [Request] and of a [Response] that matter to the
    worker and to the cache. *)
Record Request := mkRequest {
  method : string;
  url : string
}.

Record Response := mkResponse {
  status : Z;
  type : string;
  body : string
}.

(** What the promise of [fetch(event.request)] settles to. *)
Inductive Fetched :=
| NetworkResponse (response : Response)
| NetworkError.

(** The part of the global [caches] that the worker uses:
    [caches.match(request)] ([None] for [undefined]),
    [caches.open(name).then((cache) => cache.put(request, response))],
    [caches.keys()] and [caches.delete(name)]. *)
Class CacheStorage (Caches : Type) := {
  cachesMatch : Request -> Caches -> option Response;
  cachePut : string -> Request -> Response -> Caches -> Caches;
  cachesKeys : Caches -> list string;
  cachesDelete : string -> Caches -> Caches
}.

(** The [fetch] listener: what [event.respondWith] is given ([None] when
    its promise rejects) and the caches once the [put] it started, and did
    not wait for, is done. *)
Definition onFetch {Caches} `{CacheStorage Caches}
    (network : Request -> Fetched) (request : Request) (caches : Caches)
  : option Response * Caches :=
  match cachesMatch request caches with
  | Some response => (Some response, caches)
  | None =>
      match network request with
      | NetworkError => (None, caches)
      | NetworkResponse response =>
          if negb (status response =? 200) ||
             negb (String.eqb (type response) "basic")
          then (Some response, caches)
          else (Some response, cachePut CACHE_NAME request response caches)
      end
  end.

Definition cacheWhitelist : list string := [CACHE_NAME].

(** The [activate] listener: every name of [caches.keys()] that
    [cacheWhitelist.indexOf] does not find is deleted. *)
Definition onActivate {Caches} `{CacheStorage Caches} (caches : Caches)
  : Caches :=
  fold_left
    (fun st cacheName =>
       if negb (existsb (String.eqb cacheName) cacheWhitelist)
       then cachesDelete cacheName st else st)
    (cachesKeys caches) caches.

(** A cache storage for trying the worker on examples: the names of the
    caches, and the entries (cache, URL, response) in the order they were
    put.  Only GET requests are matched and stored. *)
Record Store := mkStore {
  names : list string;
  entries : list (string * string * Response)
}.

Definition storeMatch (request : Request) (st : Store) : option Response :=
  if String.eqb (method request) "GET" then
    option_map snd
      (find (fun e => String.eqb (snd (fst e)) (url request)) (entries st))
  else None.

Definition storePut (n : string) (request : Request) (response : Response)
    (st : Store) : Store :=
  if String.eqb (method request) "GET" then
    mkStore
      (if existsb (String.eqb n) (names st) then names st
       else (names st ++ [n])%list)
      (List.filter
         (fun e => negb (String.eqb (fst (fst e)) n &&
                         String.eqb (snd (fst e)) (url request)))
         (entries st) ++ [(n, url request, response)])%list
  else st.

Definition storeDelete (n : string) (st : Store) : Store :=
  mkStore (filter (fun k => k <> n) (names st))
          (List.filter (fun e => negb (String.eqb (fst (fst e)) n)) (entries st)).

Definition storeCaches : CacheStorage Store :=
  {| cachesMatch := storeMatch;
     cachePut := storePut;
     cachesKeys := names;
     cachesDelete := storeDelete |}.

Definition sampleShell : Response := mkResponse 200 "basic" "<!doctype html>".

Definition sampleNetwork (request : Request) : Fetched :=
  if String.eqb (url request) "/" then NetworkResponse sampleShell
  else NetworkResponse (mkResponse 404 "basic" "Not found").

Definition offline (request : Request) : Fetched := NetworkError.

End ServiceWorker.

(** ** Further sample values *)



(** [zip.file(name, data)] as JSZip documents it: the entry is added, or
    it replaces the entry of that name.  The archive is the map from entry
    names to contents; its bytes stand for its entries. *)
Definition mapZip : ImageProcessing.JSZip (gmap string Blob) :=
  {| ImageProcessing.newZip := ∅;
     ImageProcessing.zipFile := fun n blob zip => <[n := blob]> zip;
     ImageProcessing.generateAsync :=
       fun zip => Some (concat (map snd (map_to_list zip))) |}.

(** The JSZip object of [createZip] when [generateAsync] is called. *)
Definition archiveOf (files : list (string * Blob)) : gmap string Blob :=
  fold_left (fun zip f => <[fst f := snd f]> zip) files ∅.

Definition otherBlob : Blob := [255; 216; 0; 255; 217].

(** Two files named IMG_0001.jpg, from two folders of one drop, both
    compressed. *)
Definition sameNameRun : list Event :=
  [IntakeStarted;
   FilesProcessed 0 [sampleRead "IMG_0001.jpg" 1700000000000;
                     sampleRead "IMG_0001.jpg" 1700000000007];
   CompressSettled 0 0 sampleFulfilled;
   CompressSettled 0 1
     (ImageProcessing.Fulfilled otherBlob "data:image/jpeg;base64,/9gA/9k=");
   BatchResolved 0].

(** * Properties *)

(** ** The download name *)

Example removeExtension_photo : removeExtension "photo.jpeg" = "photo".
Proof. reflexivity. Qed.

Example removeExtension_two_dots : removeExtension "a.tar.gz" = "a.tar".
Proof. reflexivity. Qed.

Example removeExtension_no_dot : removeExtension "README" = "README".
Proof. reflexivity. Qed.

Example removeExtension_trailing_dot : removeExtension "draft." = "draft.".
Proof. reflexivity. Qed.

Example removeExtension_slash : removeExtension "a.b/c" = "a.b/c".
Proof. reflexivity. Qed.







(** ** Byte sizes *)

Example hundredthsToString_whole : hundredthsToString 100 = "1".
Proof. reflexivity. Qed.

Example hundredthsToString_tenths : hundredthsToString 150 = "1.5".
Proof. reflexivity. Qed.

Example hundredthsToString_small_fraction : hundredthsToString 105 = "1.05".
Proof. reflexivity. Qed.

Example hundredthsToString_both_places : hundredthsToString 102399 = "1023.99".
Proof. reflexivity. Qed.

Example formatBytes_null : formatBytes None = "N/A".
Proof. reflexivity. Qed.

Example formatBytes_rounds_up : formatBytes (Some 1048575) = "1024 KB".
Proof. reflexivity. Qed.

Example formatBytes_two_places : formatBytes (Some 123456789) = "117.74 MB".
Proof. reflexivity. Qed.

Example formatBytes_below_zero : formatBytes (Some (-5)) = "NaN undefined".
Proof. reflexivity. Qed.

(** Just below 1024^5 the quotient of the two logarithms rounds to 5, and
    [sizes[5]] is [undefined]. *)
Example formatBytes_below_1024_5 :
  map (fun b => formatBytes (Some b)) [2 ^ 50 - 4; 2 ^ 50 - 3; 2 ^ 50 - 1]
  = ["1024 TB"; "1 undefined"; "1 undefined"].
Proof. vm_compute. reflexivity. Qed.

Lemma checkRange_spec (d : nat) (lo : Z) (p : Z -> bool) :
  checkRange d lo p = true ->
  forall b : Z, lo <= b < lo + 2 ^ Z.of_nat d -> p b = true.
Proof.
  revert lo. induction d as [|d IH]; intros lo Hall b Hb.
  - simpl in *. now replace b with lo by lia.
  - cbn [checkRange] in Hall. apply andb_prop in Hall as [Hlow Hhigh].
    rewrite Nat2Z.inj_succ, Z.pow_succ_r in Hb by lia.
    destruct (Z.lt_ge_cases b (lo + 2 ^ Z.of_nat d)).
    + apply (IH lo Hlow). lia.
    + apply (IH _ Hhigh). lia.
Qed.






(** ** Intake *)

Lemma laterArrays_empty (later : list (list FileSystemEntry)) :
  concat later = [] ->
  (fix arrays (ls : list (list FileSystemEntry)) : list File.t :=
     match ls with
     | [] => []
     | entries :: ls' =>
         ((fix each (l : list FileSystemEntry) : list File.t :=
             match l with
             | [] => []
             | subEntry :: l' => (filesUnder subEntry ++ each l')%list
             end) entries ++ arrays ls')%list
     end) later = [].
Proof.
  induction later as [|entries later IH]; intros Hnil; [reflexivity|].
  simpl in Hnil. apply app_eq_nil in Hnil as [-> Hlater].
  now rewrite IH.
Qed.

(** X1.  The traversal descends to any depth, and it reaches every file of
    a tree whose directories each answer the first [readEntries] call with
    all they hold: [processEntry] pushes exactly the accepted files under
    the entry, in reading order. *)
Lemma processEntry_readAtOnce (entry : FileSystemEntry) :
  readAtOnce entry ->
  processEntry entry = List.filter accepted (filesUnder entry).
Proof.
  revert entry. fix IH 1. intros [f | reads] Hread.
  - simpl. now destruct (accepted f).
  - destruct reads as [|entries later]; [reflexivity|].
    simpl in Hread. destruct Hread as [Heach Hlater].
    simpl. rewrite (laterArrays_empty later Hlater), app_nil_r.
    clear Hlater later.
    induction entries as [|subEntry entries IHentries]; [reflexivity|].
    destruct Heach as [Hsub Heach].
    rewrite List.filter_app, <- (IH subEntry Hsub). f_equal.
    apply IHentries, Heach.
Qed.

(** A JPEG under three directories, with a text file beside it. *)
Lemma processEntry_readAtOnce_witness :
  processEntry
    (DirectoryEntry [[nest 2 (jpeg "deep.jpg");
                      FileEntry (File.mk "notes.txt" "text/plain" 12)]])
  = [jpeg "deep.jpg"].
Proof.
  rewrite processEntry_readAtOnce; [reflexivity|].
  simpl. repeat split.
Defined.

Lemma processEntry_any_depth (depth : nat) (f : File.t) :
  accepted f = true -> processEntry (nest depth f) = [f].
Proof.
  intros Hf. induction depth as [|d IH]; simpl.
  - now rewrite Hf.
  - now rewrite IH.
Qed.

(** C4.  A directory whose reader hands over [first.jpg] on the first
    [readEntries] call and [second.jpg] on the next: both are JPEG files
    under the dropped directory, and [handleDrop] passes only the first to
    [processFiles], so no record is made for the second. *)
Theorem handleDrop_reads_one_array :
  let dir := DirectoryEntry [[FileEntry (jpeg "first.jpg")];
                             [FileEntry (jpeg "second.jpg")]] in
  filesUnder dir = [jpeg "first.jpg"; jpeg "second.jpg"] /\
  accepted (jpeg "second.jpg") = true /\
  droppedFiles [mkItem "file" (Some dir) None] = [jpeg "first.jpg"] /\
  ids (newImages 80 [mkRead (jpeg "first.jpg") "data:image/jpeg;base64,AA" 1700000000000])
    = ["first.jpg-1700000000000"].
Proof. repeat split. Qed.

(** ** The invariant of the page state *)

Lemma recordOk_newImage (q : Z) (r : FileRead) : recordOk (newImage q r).
Proof. repeat split. Qed.

Lemma recordOk_asCompressing (q : Z) (i : CompressedImage.t) :
  recordOk (asCompressing q i).
Proof. exact I. Qed.

Lemma recordOk_settle (q : Z) (img : CompressedImage.t)
    (lib : ImageProcessing.Settled) :
  recordOk (settle q img lib).
Proof. destruct lib; repeat split; eexists; reflexivity. Qed.

Lemma recordOk_newImages (q : Z) (reads : list FileRead) :
  Forall recordOk (newImages q reads).
Proof. apply Forall_map, Forall_true, recordOk_newImage. Qed.

Lemma recordOk_markCompressing (q : Z) (img : CompressedImage.t)
    (prev : list CompressedImage.t) :
  Forall recordOk prev -> Forall recordOk (markCompressing q img prev).
Proof.
  intros Hprev. apply Forall_map. eapply Forall_impl; [exact Hprev|].
  intros i Hi. simpl. destruct (_ =? _)%string; [exact I | exact Hi].
Qed.

Lemma recordOk_queuedUpdaters (q : Z) (current prev : list CompressedImage.t) :
  Forall recordOk prev -> Forall recordOk (queuedUpdaters q current prev).
Proof.
  unfold queuedUpdaters. revert prev.
  induction current as [|img current IH]; intros prev Hprev; [exact Hprev|].
  simpl. apply IH. destruct (skipped q img); [exact Hprev|].
  now apply recordOk_markCompressing.
Qed.

Lemma batchOk_startBatch (q : Z) (current : list CompressedImage.t) :
  Forall recordOk current -> batchOk (startBatch q current).
Proof.
  intros Hcur. split; [exact Hcur|]. simpl.
  clear Hcur. induction current as [|img current IH]; constructor; [|exact IH].
  destruct (skipped q img) eqn:E; simpl; [left; now split | exact E].
Qed.

Lemma allResolved_Some (B : Batch) (updatedImages : list CompressedImage.t) :
  allResolved B = Some updatedImages <-> resolved B = map Some updatedImages.
Proof.
  unfold allResolved. rewrite mapM_Some. split.
  - intros H. induction H as [|x y l k Hxy _ IH]; simpl; congruence.
  - intros ->. induction updatedImages; constructor; auto.
Qed.

Lemma batchOk_results (B : Batch) (updatedImages : list CompressedImage.t) :
  batchOk B -> resolved B = map Some updatedImages ->
  Forall recordOk updatedImages.
Proof.
  intros [Hcur Hres] Heq. rewrite Heq in Hres. clear Heq.
  revert Hcur Hres. generalize (currentImages B) as current.
  induction updatedImages as [|u us IH]; intros current Hcur Hres;
    [constructor|].
  simpl in Hres. inversion Hres as [|img ? current' ? Hu Hrest]; subst.
  inversion Hcur; subst. constructor; [|eauto].
  destruct Hu as [[_ ->] | [_ [lib ->]]]; [assumption | apply recordOk_settle].
Qed.

Lemma Forall_filter_keeps {A} (P Q : A -> Prop) `{!forall x, Decision (Q x)}
    (l : list A) :
  Forall P l -> Forall P (filter Q l).
Proof.
  rewrite !Forall_forall. intros Hl x Hx.
  apply list_elem_of_filter in Hx as [_ Hx]. auto.
Qed.

Lemma batches_snoc_ok (bs : list Batch) (q : Z)
    (current : list CompressedImage.t) :
  Forall batchOk bs -> Forall recordOk current ->
  Forall batchOk (bs ++ [startBatch q current]).
Proof.
  intros Hbs Hcur. apply Forall_app. split; [exact Hbs|].
  apply Forall_singleton. now apply batchOk_startBatch.
Qed.

Ltac split_stateOk := unfold stateOk; split; [|split]; simpl.

Ltac step_simpl H :=
  cbn [step] in H;
  unfold handleRemoveImage, processFiles, qualityEffect, compressAllImages,
    setCompressionQuality, setImages in H;
  simpl in H.

Lemma stateOk_step (e : Event) (s s' : State) :
  stateOk s -> step e s = Some s' -> stateOk s'.
Proof.
  intros (Himg & Hint & Hbat) Hstep. destruct e as [|k reads|q|rid|b i lib|b];
    step_simpl Hstep.
  - inversion Hstep; subst; clear Hstep. split_stateOk; try assumption.
    apply Forall_app; split; [assumption|]. now apply Forall_singleton.
  - destruct (intakes s !! k) as [c|] eqn:Hc; step_simpl Hstep; [|discriminate].
    inversion Hstep; subst; clear Hstep.
    pose proof (Forall_lookup_1 _ _ _ _ Hint Hc) as Hclosure. simpl in Hclosure.
    pose proof (recordOk_newImages (closureQuality c) reads) as Hnew.
    split_stateOk.
    + apply recordOk_queuedUpdaters, Forall_app; now split.
    + now apply Forall_delete.
    + apply batches_snoc_ok; [assumption|]. apply Forall_app; now split.
  - destruct (q =? compressionQuality s);
      [inversion Hstep; subst; now split_stateOk|].
    destruct (bool_decide (images s = []));
      inversion Hstep; subst; clear Hstep; split_stateOk; try assumption.
    + now apply recordOk_queuedUpdaters.
    + now apply batches_snoc_ok.
  - inversion Hstep; subst; clear Hstep. split_stateOk; try assumption.
    now apply Forall_filter_keeps.
  - destruct (batches s !! b) as [B|] eqn:HB; step_simpl Hstep; [|discriminate].
    destruct (currentImages B !! i) as [img|] eqn:Himgi; step_simpl Hstep;
      [|discriminate].
    destruct (resolved B !! i) as [[u|]|] eqn:Hr; step_simpl Hstep;
      try discriminate.
    inversion Hstep; subst; clear Hstep. split_stateOk; try assumption.
    pose proof (Forall_lookup_1 _ _ _ _ Hbat HB) as [HBcur HBres].
    apply Forall_insert; [assumption|]. split; simpl; [assumption|].
    rewrite <- (list_insert_id (currentImages B) i img Himgi).
    apply Forall2_insert; [exact HBres|].
    right. split; [|eexists; reflexivity].
    exact (Forall2_lookup_lr _ _ _ _ _ _ HBres Himgi Hr).
  - destruct (batches s !! b) as [B|] eqn:HB; step_simpl Hstep; [|discriminate].
    destruct (allResolved B) as [updatedImages|] eqn:Hall; step_simpl Hstep;
      [|discriminate].
    inversion Hstep; subst; clear Hstep. split_stateOk; try assumption.
    + apply (batchOk_results B); [|now apply allResolved_Some].
      exact (Forall_lookup_1 _ _ _ _ Hbat HB).
    + now apply Forall_delete.
Qed.

Lemma stateOk_initial : stateOk initial.
Proof. repeat split; constructor. Qed.

Lemma reachable_stateOk (s : State) : reachable s -> stateOk s.
Proof.
  induction 1 as [|e s s' _ IH Hstep]; [apply stateOk_initial|].
  exact (stateOk_step e s s' IH Hstep).
Qed.

Lemma reachable_run (es : list Event) (s s' : State) :
  reachable s -> run es s = Some s' -> reachable s'.
Proof.
  revert s. induction es as [|e es IH]; intros s Hs Hrun; simpl in Hrun.
  - now inversion Hrun; subst.
  - destruct (step e s) as [s1|] eqn:Hstep; simpl in Hrun; [|discriminate].
    eapply IH; [|exact Hrun]. eapply reachable_step; eauto.
Qed.

Example run_oneCompleted :
  run oneCompleted initial = Some (mkState [completedRecord] 80 [] []).
Proof. reflexivity. Qed.

Example run_oneFailed :
  run oneFailed initial = Some (mkState [failedRecord] 80 [] []).
Proof. reflexivity. Qed.

Lemma reachable_oneCompleted : reachable (mkState [completedRecord] 80 [] []).
Proof. exact (reachable_run oneCompleted _ _ reachable_initial run_oneCompleted). Qed.

Lemma reachable_oneFailed : reachable (mkState [failedRecord] 80 [] []).
Proof. exact (reachable_run oneFailed _ _ reachable_initial run_oneFailed). Qed.

Lemma reachable_recordOk (s : State) (img : CompressedImage.t) :
  reachable s -> img ∈ images s -> recordOk img.
Proof.
  intros Hs Himg. destruct (reachable_stateOk s Hs) as (Hall & _ & _).
  rewrite Forall_forall in Hall. auto.
Qed.

(** ** Payload and status *)

(** C1, as stated, fails.  A completed record, then the slider moved to 50:
    the updater queued by [compressAllImages] sets the record's status to
    compressing and keeps its blob and its data URL. *)
Lemma payload_kept_while_compressing :
  ~ (forall (s : State) (img : CompressedImage.t),
        reachable s -> img ∈ images s ->
        (is_Some (compressedBlob img) <-> status img = Completed)).
Proof.
  intros Hclaim.
  destruct (run [QualityChanged 50] (mkState [completedRecord] 80 [] []))
    as [s|] eqn:Hrun; [|discriminate].
  pose proof (reachable_run _ _ _ reachable_oneCompleted Hrun) as Hs.
  vm_compute in Hrun. injection Hrun as <-.
  apply (Hclaim _ (asCompressing 50 completedRecord)) in Hs; [|left].
  destruct Hs as [Hs _]. discriminate Hs. now eexists.
Qed.

(** C1, amended.  In every reachable state, a record of the collection
    whose status is not compressing holds a blob, and a data URL, exactly
    when its status is completed; the compressing mark keeps both as they
    were. *)
Theorem payload_iff_completed_unless_compressing
    (s : State) (img : CompressedImage.t) :
  reachable s -> img ∈ images s ->
  (status img <> Compressing ->
     (is_Some (compressedBlob img) <-> status img = Completed) /\
     (is_Some (compressedUrl img) <-> status img = Completed)) /\
  (forall q : Z,
     compressedBlob (asCompressing q img) = compressedBlob img /\
     compressedUrl (asCompressing q img) = compressedUrl img).
Proof.
  intros Hs Himg. split; [|now split].
  pose proof (reachable_recordOk s img Hs Himg) as Hok.
  unfold recordOk in Hok. intros Hnc.
  destruct (status img) eqn:Est; try congruence.
  - destruct Hok as (-> & -> & _).
    split; split; try discriminate; intros [? ?]; discriminate.
  - destruct Hok as (Hu & Hb & _). now repeat split.
  - destruct Hok as (-> & -> & _).
    split; split; try discriminate; intros [? ?]; discriminate.
Qed.

(** The record of [oneCompleted]: a blob, and completed. *)
Lemma payload_iff_completed_unless_compressing_witness :
  is_Some (compressedBlob completedRecord) <-> status completedRecord = Completed.
Proof.
  refine (proj1 (proj1 (payload_iff_completed_unless_compressing
            (mkState [completedRecord] 80 [] []) completedRecord _ _) _)).
  - exact reachable_oneCompleted.
  - left.
  - discriminate.
Defined.

(** C6, as stated, fails.  A failed record, then the slider moved to 50: the
    record's status becomes compressing and its error message stays. *)
Lemma error_kept_while_compressing :
  ~ (forall (s : State) (img : CompressedImage.t),
        reachable s -> img ∈ images s ->
        (is_Some (error img) <-> status img = Error)).
Proof.
  intros Hclaim.
  destruct (run [QualityChanged 50] (mkState [failedRecord] 80 [] []))
    as [s|] eqn:Hrun; [|discriminate].
  pose proof (reachable_run _ _ _ reachable_oneFailed Hrun) as Hs.
  vm_compute in Hrun. injection Hrun as <-.
  apply (Hclaim _ (asCompressing 50 failedRecord)) in Hs; [|left].
  destruct Hs as [Hs _]. discriminate Hs. now eexists.
Qed.

(** C6, amended.  In every reachable state, a record of the collection whose
    status is not compressing carries an error message exactly when its
    status is error; the compressing mark keeps the message as it was, and
    the object of the [try] block clears it. *)
Theorem error_iff_failed_unless_compressing
    (s : State) (img : CompressedImage.t) :
  reachable s -> img ∈ images s ->
  (status img <> Compressing ->
     (is_Some (error img) <-> status img = Error)) /\
  (forall q : Z, error (asCompressing q img) = error img) /\
  (forall (q : Z) (blob : Blob) (dataUrl : string),
     error (settle q img (ImageProcessing.Fulfilled blob dataUrl)) = None).
Proof.
  intros Hs Himg. split; [|now split].
  pose proof (reachable_recordOk s img Hs Himg) as Hok.
  unfold recordOk in Hok. intros Hnc.
  destruct (status img) eqn:Est; try congruence.
  - destruct Hok as (_ & _ & _ & ->).
    split; try discriminate; intros [? ?]; discriminate.
  - destruct Hok as (_ & _ & _ & ->).
    split; try discriminate; intros [? ?]; discriminate.
  - destruct Hok as (_ & _ & _ & He). now split.
Qed.

(** The record of [oneFailed]: a message, and failed. *)
Lemma error_iff_failed_unless_compressing_witness :
  is_Some (error failedRecord) <-> status failedRecord = Error.
Proof.
  refine (proj1 (error_iff_failed_unless_compressing
            (mkState [failedRecord] 80 [] []) failedRecord _ _) _).
  - exact reachable_oneFailed.
  - left.
  - discriminate.
Defined.

(** ** Removal *)

Lemma filter_id_absent (rid : string) (l : list CompressedImage.t) :
  rid ∉ ids l -> filter (fun img => CompressedImage.id img <> rid) l = l.
Proof.
  induction l as [|img l IH]; intros Hnot; [reflexivity|].
  unfold ids in Hnot. simpl in Hnot. apply not_elem_of_cons in Hnot as [Hne Hnot].
  rewrite filter_cons_True by congruence. f_equal. now apply IH.
Qed.

(** Two dropped files named photo.jpg whose [Date.now()] values agree get
    one id, and removing by that id deletes both records: a removal does
    not always shorten the collection by one. *)
Lemma remove_deletes_every_twin :
  ~ (forall (s s' : State) (rid : string),
        reachable s -> rid ∈ ids (images s) ->
        step (RemoveImage rid) s = Some s' ->
        length (images s) = S (length (images s'))).
Proof.
  intros Hclaim.
  destruct (run intakeTwins initial) as [s|] eqn:Hrun; [|discriminate].
  pose proof (reachable_run _ _ _ reachable_initial Hrun) as Hs.
  vm_compute in Hrun. injection Hrun as <-.
  eapply (Hclaim _ _ "photo.jpg-1700000000000") in Hs;
    [| left | reflexivity].
  vm_compute in Hs. discriminate Hs.
Qed.

(** X20.  [handleRemoveImage] keeps, in their order and unchanged, the
    records whose id differs from the given one, and touches neither the
    quality nor the batches, so nothing is compressed again; when one
    record carries the id, that record alone is deleted. *)
Theorem handleRemoveImage_frame (s : State) (rid : string) :
  exists s' : State,
    step (RemoveImage rid) s = Some s' /\
    images s' = filter (fun img => CompressedImage.id img <> rid) (images s) /\
    compressionQuality s' = compressionQuality s /\
    intakes s' = intakes s /\
    batches s' = batches s /\
    (forall (before after : list CompressedImage.t) (img : CompressedImage.t),
        images s = (before ++ img :: after)%list ->
        CompressedImage.id img = rid ->
        rid ∉ ids before -> rid ∉ ids after ->
        images s' = (before ++ after)%list).
Proof.
  eexists. split; [reflexivity|]. simpl. repeat split.
  intros before after img -> Hid Hb Ha.
  rewrite filter_app, filter_cons_False by (intros Hne; congruence).
  now rewrite !filter_id_absent.
Qed.

(** Of three records, the second is removed: the other two stay, in order,
    and the batch over the three is as it was. *)
Lemma handleRemoveImage_frame_witness :
  exists s s' : State,
    run intakeThree initial = Some s /\
    step (RemoveImage "b.jpg-1700000000001") s = Some s' /\
    ids (images s') = ["a.jpg-1700000000000"; "c.jpg-1700000000002"] /\
    batches s' = batches s.
Proof.
  destruct (run intakeThree initial) as [s|] eqn:Hrun; [|discriminate].
  destruct (handleRemoveImage_frame s "b.jpg-1700000000001")
    as (s' & Hstep & Himages & _ & _ & Hbatches & _).
  exists s, s'. repeat split; try assumption.
  rewrite Himages. vm_compute in Hrun. injection Hrun as <-. reflexivity.
Defined.

(** ** Batches *)

Lemma elem_of_markCompressing (q : Z) (img u : CompressedImage.t)
    (prev : list CompressedImage.t) :
  u ∈ markCompressing q img prev ->
  u ∈ prev \/ status u = Compressing.
Proof.
  unfold markCompressing. rewrite list_elem_of_fmap.
  intros (i & -> & Hi). destruct (_ =? _)%string; [now right | now left].
Qed.

Lemma elem_of_queuedUpdaters (q : Z) (current prev : list CompressedImage.t)
    (u : CompressedImage.t) :
  u ∈ queuedUpdaters q current prev ->
  u ∈ prev \/ status u = Compressing.
Proof.
  unfold queuedUpdaters. revert prev.
  induction current as [|img current IH]; intros prev Hu; [now left|].
  simpl in Hu. apply IH in Hu as [Hu | Hu]; [|now right].
  destruct (skipped q img); [now left|].
  now apply elem_of_markCompressing in Hu.
Qed.

Lemma elem_of_newImages (q : Z) (reads : list FileRead) (u : CompressedImage.t) :
  u ∈ newImages q reads -> status u = Pending.
Proof.
  unfold newImages. rewrite list_elem_of_fmap. now intros (r & -> & _).
Qed.

(** C2.  A result of [compressImage] reaches the collection only through
    the [setImages(updatedImages)] that follows [Promise.all]: the settling
    of one member leaves the collection as it is, no other event brings in
    a completed or failed record that was not there, and the batch is
    published only when every member has resolved, as one replacement of
    the whole collection by the members' results. *)
Theorem results_published_at_once (e : Event) (s s' : State) :
  step e s = Some s' ->
  (forall b i lib, e = CompressSettled b i lib -> images s' = images s) /\
  ((forall b, e <> BatchResolved b) ->
   forall img : CompressedImage.t,
     img ∈ images s' -> status img = Completed \/ status img = Error ->
     img ∈ images s) /\
  (forall b, e = BatchResolved b ->
     exists B : Batch,
       batches s !! b = Some B /\
       resolved B = map Some (images s') /\
       batches s' = delete b (batches s)).
Proof.
  intros Hstep. split; [|split].
  - intros b i lib ->. step_simpl Hstep.
    destruct (batches s !! b) as [B|]; step_simpl Hstep; [|discriminate].
    destruct (currentImages B !! i); step_simpl Hstep; [|discriminate].
    destruct (resolved B !! i) as [[u|]|]; step_simpl Hstep; try discriminate.
    now inversion Hstep.
  - intros Hnot img Himg Hst.
    destruct e as [|k reads|q|rid|b i lib|b]; step_simpl Hstep.
    + now inversion Hstep; subst.
    + destruct (intakes s !! k) as [c|]; step_simpl Hstep; [|discriminate].
      inversion Hstep; subst; clear Hstep. simpl in Himg.
      apply elem_of_queuedUpdaters in Himg as [Himg | Himg];
        [|destruct Hst; congruence].
      apply elem_of_app in Himg as [Himg | Himg]; [assumption|].
      apply elem_of_newImages in Himg. destruct Hst; congruence.
    + destruct (q =? compressionQuality s); [now inversion Hstep; subst|].
      destruct (bool_decide (images s = []));
        inversion Hstep; subst; clear Hstep; simpl in Himg; [assumption|].
      apply elem_of_queuedUpdaters in Himg as [Himg | Himg];
        [assumption | destruct Hst; congruence].
    + inversion Hstep; subst; clear Hstep. simpl in Himg.
      now apply list_elem_of_filter in Himg as [_ Himg].
    + destruct (batches s !! b) as [B|]; step_simpl Hstep; [|discriminate].
      destruct (currentImages B !! i); step_simpl Hstep; [|discriminate].
      destruct (resolved B !! i) as [[u|]|]; step_simpl Hstep; try discriminate.
      now inversion Hstep; subst.
    + now destruct (Hnot b).
  - intros b ->. step_simpl Hstep.
    destruct (batches s !! b) as [B|] eqn:HB; step_simpl Hstep; [|discriminate].
    destruct (allResolved B) as [updatedImages|] eqn:Hall; step_simpl Hstep;
      [|discriminate].
    inversion Hstep; subst; clear Hstep. exists B.
    repeat split. now apply allResolved_Some.
Qed.

(** Three files in flight, the second one settles: the collection is as it
    was. *)
Lemma results_published_at_once_witness :
  exists s s' : State,
    run intakeThree initial = Some s /\
    step (CompressSettled 0 1 sampleFulfilled) s = Some s' /\
    images s' = images s.
Proof.
  destruct (run intakeThree initial) as [s|] eqn:Hrun; [|discriminate].
  destruct (step (CompressSettled 0 1 sampleFulfilled) s) as [s'|] eqn:Hstep;
    [|vm_compute in Hrun; injection Hrun as <-; discriminate].
  exists s, s'. split; [reflexivity|]. split; [exact Hstep|].
  exact (proj1 (results_published_at_once _ s s' Hstep) 0%nat 1%nat
           sampleFulfilled eq_refl).
Defined.

(** ** Quality change *)

Lemma skipped_false_of_quality (q : Z) (img : CompressedImage.t) :
  quality img <> q -> skipped q img = false.
Proof.
  intros Hq. unfold skipped. apply Z.eqb_neq in Hq. rewrite Hq.
  apply andb_false_r.
Qed.

Lemma skipped_true_of_error (q : Z) (img : CompressedImage.t) :
  status img = Error -> quality img = q -> skipped q img = true.
Proof.
  intros Hst Hq. unfold skipped.
  now rewrite bool_decide_eq_true_2, Hq, Z.eqb_refl.
Qed.

Lemma resolved_startBatch (q : Z) (current : list CompressedImage.t)
    (i : nat) (img : CompressedImage.t) :
  current !! i = Some img ->
  resolved (startBatch q current) !! i =
    Some (if skipped q img then Some img else None).
Proof.
  intros Hi. simpl.
  change (map ?f current) with (f <$> current).
  now rewrite list_lookup_fmap, Hi.
Qed.

Lemma status_settle (q : Z) (img : CompressedImage.t)
    (lib : ImageProcessing.Settled) :
  quality (settle q img lib) = q /\
  (status (settle q img lib) = Completed \/ status (settle q img lib) = Error).
Proof. destruct lib; simpl; auto. Qed.

(** Moving the slider to a value [q] other than the current one, over
    a collection that is not empty, starts one batch at [q] over the whole
    collection.  In it, [compressImage] is running for every record whose
    quality differs from [q]; a failed record whose quality is [q] is
    returned as it is; and whatever [compressImage] settles to for a record
    it runs on, the record that results has quality [q] and is completed or
    failed. *)
Theorem quality_change_reprocesses (s : State) (q : Z) :
  q <> compressionQuality s -> images s <> [] ->
  exists (s' : State) (B : Batch),
    step (QualityChanged q) s = Some s' /\
    compressionQuality s' = q /\
    batches s' = (batches s ++ [B])%list /\
    batchQuality B = q /\
    currentImages B = images s /\
    forall (i : nat) (img : CompressedImage.t),
      images s !! i = Some img ->
      (quality img <> q -> resolved B !! i = Some None) /\
      (status img = Error -> quality img = q ->
         resolved B !! i = Some (Some img)) /\
      (resolved B !! i = Some None ->
       forall lib : ImageProcessing.Settled,
       exists (s'' : State) (B' : Batch),
         step (CompressSettled (length (batches s)) i lib) s' = Some s'' /\
         batches s'' !! length (batches s) = Some B' /\
         resolved B' !! i = Some (Some (settle q img lib)) /\
         quality (settle q img lib) = q /\
         (status (settle q img lib) = Completed \/
          status (settle q img lib) = Error)).
Proof.
  intros Hq Hne.
  exists (mkState (queuedUpdaters q (images s) (images s)) q (intakes s)
            (batches s ++ [startBatch q (images s)])),
         (startBatch q (images s)).
  split.
  { cbn [step]. apply Z.eqb_neq in Hq. rewrite Hq.
    unfold qualityEffect, setCompressionQuality. cbn [images].
    now rewrite bool_decide_eq_false_2. }
  repeat split; simpl batches; simpl compressionQuality.
  - intros Hdiff. rewrite (resolved_startBatch q _ i img H).
    now rewrite skipped_false_of_quality.
  - intros Hst Hsame. rewrite (resolved_startBatch q _ i img H).
    now rewrite skipped_true_of_error.
  - intros Hrun lib.
    assert (Hb : (batches s ++ [startBatch q (images s)])%list
                   !! length (batches s)
                 = Some (startBatch q (images s))).
    { now rewrite lookup_app_r, Nat.sub_diag by lia. }
    assert (Hi : (i < length (resolved (startBatch q (images s))))%nat).
    { apply lookup_lt_is_Some. rewrite Hrun. eauto. }
    cbn [resolved startBatch] in Hrun, Hi.
    eexists _, _. split.
    { cbn [step batches]. rewrite Hb. simpl mbind.
      cbn [currentImages startBatch]. rewrite H. simpl mbind.
      rewrite Hrun. simpl. reflexivity. }
    cbn [batches batchQuality currentImages startBatch].
    split.
    { apply list_lookup_insert_eq, lookup_lt_is_Some. eauto. }
    split.
    { cbn [resolved]. now apply list_lookup_insert_eq. }
    apply status_settle.
Qed.

(** One completed record at 80, the slider moved to 50. *)
Lemma quality_change_reprocesses_witness :
  exists (s' : State) (B : Batch),
    step (QualityChanged 50) (mkState [completedRecord] 80 [] []) = Some s' /\
    batches s' = [B] /\
    resolved B = [None] /\
    quality (settle 50 completedRecord sampleThrown) = 50.
Proof.
  destruct (quality_change_reprocesses (mkState [completedRecord] 80 [] []) 50)
    as (s' & B & Hstep & _ & Hbatches & _ & _ & Hall); [discriminate..|].
  exists s', B. split; [exact Hstep|]. split; [exact Hbatches|].
  split; [|reflexivity].
  step_simpl Hstep. injection Hstep as <-.
  simpl in Hbatches. now injection Hbatches as <-.
Defined.

(** ** A batch against what happened meanwhile *)





(** ** Export *)

Lemma completedImages_of_ok (l : list CompressedImage.t) :
  Forall recordOk l ->
  exists blobs : list Blob,
    Forall2 (fun img blob => compressedBlob img = Some blob)
            (filter (fun img => status img = Completed) l) blobs /\
    completedImages l =
      zip (filter (fun img => status img = Completed) l) blobs.
Proof.
  induction 1 as [|img l Hok _ (blobs & Hblobs & Heq)].
  - exists []. split; [constructor | reflexivity].
  - unfold completedImages in *. cbn [omap list_omap].
    destruct (decide (status img = Completed)) as [Hst | Hst].
    + rewrite filter_cons_True by exact Hst.
      rewrite bool_decide_eq_true_2 by exact Hst.
      unfold recordOk in Hok. rewrite Hst in Hok.
      destruct Hok as (_ & [blob Hblob] & _). rewrite Hblob. simpl.
      exists (blob :: blobs). split; [now constructor|].
      now rewrite Heq.
    + rewrite filter_cons_False by exact Hst.
      rewrite bool_decide_eq_false_2 by exact Hst.
      exists blobs. now split.
Qed.

(** X21.  [handleDownloadAll] over a reachable collection, by the number
    of its completed records: none, and nothing is offered; one, and what
    is offered is what [handleDownload] offers for that record, its blob
    under the name compressed_<stem>.<ext>; more, and [zip.file] is called
    once per completed record, in the order of the collection, with that
    record's download name and blob, and what [generateAsync] then yields
    is offered as LitePress_Compressed_Images.zip (an alert when it
    rejects). *)
Theorem handleDownloadAll_cases {Zip} `{ImageProcessing.JSZip Zip} (s : State) :
  reachable s ->
  let done := filter (fun img => status img = Completed) (images s) in
  (done = [] -> handleDownloadAll (Zip := Zip) (images s) = []) /\
  (forall img : CompressedImage.t,
      done = [img] ->
      handleDownloadAll (Zip := Zip) (images s) = handleDownload img /\
      exists blob : Blob,
        compressedBlob img = Some blob /\
        handleDownload img =
          [Download ("compressed_" +:+ removeExtension (File.name (file img))
                     +:+ "." +:+
                     ImageProcessing.getFileExtension (File.type (file img)))
                    blob]) /\
  ((1 < length done)%nat ->
   exists blobs : list Blob,
     Forall2 (fun img blob => compressedBlob img = Some blob) done blobs /\
     handleDownloadAll (Zip := Zip) (images s) =
       match ImageProcessing.generateAsync
               (fold_left
                  (fun zip e => ImageProcessing.zipFile (fst e) (snd e) zip)
                  (zip (map (fun img => downloadName (file img)) done) blobs)
                  ImageProcessing.newZip)
       with
       | Some zipBlob => [Download "LitePress_Compressed_Images.zip" zipBlob]
       | None => [Alert "Failed to create ZIP file."]
       end).
Proof.
  intros Hs done.
  destruct (reachable_stateOk s Hs) as (Hok & _ & _).
  destruct (completedImages_of_ok (images s) Hok) as (blobs & Hblobs & Heq).
  fold done in Hblobs, Heq.
  pose proof (Forall2_length _ _ _ Hblobs) as Hlen.
  unfold handleDownloadAll. rewrite Heq. clear Heq.
  split; [|split].
  - intros Hnil. now rewrite Hnil.
  - intros img Hone. rewrite Hone in *.
    destruct blobs as [|blob [|? ?]]; try discriminate Hlen.
    inversion Hblobs as [|? ? ? ? Hblob _]; subst. simpl.
    unfold handleDownload. rewrite Hblob. split; [reflexivity|].
    exists blob. split; reflexivity.
  - intros Hmany. exists blobs. split; [exact Hblobs|].
    rewrite length_zip, <- Hlen, Nat.min_id.
    destruct (length done) as [|[|n]] eqn:Hn; try lia.
    simpl Nat.eqb. cbv iota.
    unfold ImageProcessing.createZip, filesToZip.
    replace (map (fun c : CompressedImage.t * Blob =>
                    (downloadName (file (fst c)), snd c)) (zip done blobs))
      with (zip (map (fun img => downloadName (file img)) done) blobs);
      [reflexivity|].
    clear -Hblobs. induction Hblobs; simpl; [reflexivity | now f_equal].
Qed.

(** One completed record: export-all is export-one. *)
Lemma handleDownloadAll_cases_witness :
  handleDownloadAll (H := listZip) [completedRecord]
  = handleDownload completedRecord.
Proof.
  destruct (handleDownloadAll_cases (H := listZip)
              (mkState [completedRecord] 80 [] []) reachable_oneCompleted)
    as (_ & Hone & _).
  exact (proj1 (Hone completedRecord eq_refl)).
Defined.

Example handleDownloadAll_one :
  handleDownloadAll (H := listZip) [completedRecord]
  = [Download "compressed_a.jpg" sampleBlob].
Proof. reflexivity. Qed.

Example handleDownloadAll_two :
  handleDownloadAll (H := listZip)
    [completedRecord; failedRecord; settle 80 (newImage 80 (sampleRead "b.jpeg" 5)) sampleFulfilled]
  = [Download "LitePress_Compressed_Images.zip" (sampleBlob ++ sampleBlob)%list].
Proof. reflexivity. Qed.

Example handleDownloadAll_none :
  handleDownloadAll (H := listZip) [failedRecord] = [].
Proof. reflexivity. Qed.

(** * Further properties *)

(** ** What holds of every record ever held *)

Section EveryRecord.

Variable P : CompressedImage.t -> Prop.
Hypothesis P_new : forall q r, P (newImage q r).
Hypothesis P_mark : forall q i, P i -> P (asCompressing q i).
Hypothesis P_settle : forall q img lib, P img -> P (settle q img lib).

Lemma every_queuedUpdaters (q : Z) (current prev : list CompressedImage.t) :
  Forall P prev -> Forall P (queuedUpdaters q current prev).
Proof.
  unfold queuedUpdaters. revert prev.
  induction current as [|img current IH]; intros prev Hprev; [exact Hprev|].
  simpl. apply IH. destruct (skipped q img); [exact Hprev|].
  apply Forall_map. eapply Forall_impl; [exact Hprev|].
  intros i Hi. simpl. destruct (_ =? _)%string; auto.
Qed.

Lemma every_startBatch (q : Z) (current : list CompressedImage.t) :
  Forall P current ->
  Forall (from_option P True) (resolved (startBatch q current)).
Proof.
  intros Hcur. simpl. apply Forall_map. eapply Forall_impl; [exact Hcur|].
  intros img Himg. simpl. now destruct (skipped q img).
Qed.

Lemma everyRecord_step (e : Event) (s s' : State) :
  everyRecord P s -> step e s = Some s' -> everyRecord P s'.
Proof.
  intros (Himg & Hint & Hbat) Hstep.
  destruct e as [|k reads|q|rid|b i lib|b]; step_simpl Hstep.
  - injection Hstep as <-. split; [|split]; simpl; try assumption.
    apply Forall_app. split; [assumption|]. now apply Forall_singleton.
  - destruct (intakes s !! k) as [c|] eqn:Hc; step_simpl Hstep; [|discriminate].
    injection Hstep as <-.
    pose proof (Forall_lookup_1 _ _ _ _ Hint Hc) as Hclosure. simpl in Hclosure.
    assert (Hnew : Forall P (newImages (closureQuality c) reads)).
    { apply Forall_map, Forall_true. intros r. apply P_new. }
    assert (Hcur : Forall P (closureImages c ++ newImages (closureQuality c) reads)%list).
    { apply Forall_app. now split. }
    split; [|split]; simpl.
    + apply every_queuedUpdaters, Forall_app. now split.
    + now apply Forall_delete.
    + apply Forall_app. split; [assumption|]. apply Forall_singleton.
      split; [exact Hcur | now apply every_startBatch].
  - destruct (q =? compressionQuality s);
      [injection Hstep as <-; now split|].
    destruct (bool_decide (images s = [])); injection Hstep as <-;
      split; try split; simpl; try assumption.
    + now apply every_queuedUpdaters.
    + apply Forall_app. split; [assumption|]. apply Forall_singleton.
      split; [exact Himg | now apply every_startBatch].
  - injection Hstep as <-. split; [|split]; simpl; try assumption.
    now apply Forall_filter_keeps.
  - destruct (batches s !! b) as [B|] eqn:HB; step_simpl Hstep; [|discriminate].
    destruct (currentImages B !! i) as [img|] eqn:Himgi; step_simpl Hstep;
      [|discriminate].
    destruct (resolved B !! i) as [[u|]|] eqn:Hr; step_simpl Hstep;
      try discriminate.
    injection Hstep as <-. split; [|split]; simpl; try assumption.
    pose proof (Forall_lookup_1 _ _ _ _ Hbat HB) as [HBcur HBres].
    apply Forall_insert; [assumption|]. split; simpl; [assumption|].
    apply Forall_insert; [assumption|]. simpl.
    apply P_settle. exact (Forall_lookup_1 _ _ _ _ HBcur Himgi).
  - destruct (batches s !! b) as [B|] eqn:HB; step_simpl Hstep; [|discriminate].
    destruct (allResolved B) as [updatedImages|] eqn:Hall; step_simpl Hstep;
      [|discriminate].
    injection Hstep as <-. split; [|split]; simpl; try assumption.
    + pose proof (Forall_lookup_1 _ _ _ _ Hbat HB) as [_ HBres].
      apply allResolved_Some in Hall. rewrite Hall in HBres.
      clear -HBres. induction updatedImages as [|u us IH]; [constructor|].
      simpl in HBres. inversion HBres; subst. constructor; auto.
    + now apply Forall_delete.
Qed.

Lemma reachable_everyRecord (s : State) : reachable s -> everyRecord P s.
Proof.
  induction 1 as [|e s s' _ IH Hstep].
  - repeat split; constructor.
  - exact (everyRecord_step e s s' IH Hstep).
Qed.

Lemma reachable_every_image (s : State) (img : CompressedImage.t) :
  reachable s -> img ∈ images s -> P img.
Proof.
  intros Hs Himg. destruct (reachable_everyRecord s Hs) as (Hall & _ & _).
  rewrite Forall_forall in Hall. auto.
Qed.

End EveryRecord.

(** X2.  In every reachable state and whatever its status, a record of the
    collection that holds a blob holds that blob's size as [compressedSize]
    and a data URL, and a record without a blob holds neither. *)
Theorem payload_fields_agree (s : State) (img : CompressedImage.t) :
  reachable s -> img ∈ images s ->
  match compressedBlob img with
  | Some blob =>
      compressedSize img = Some (blob_size blob) /\ is_Some (compressedUrl img)
  | None => compressedSize img = None /\ compressedUrl img = None
  end.
Proof.
  apply (reachable_every_image payloadAgrees).
  - intros q r. now split.
  - intros q i Hi. exact Hi.
  - intros q i lib _. destruct lib; unfold payloadAgrees; simpl; eauto.
Qed.

(** The record of [oneCompleted]: four bytes, and a size of four. *)
Lemma payload_fields_agree_witness :
  compressedSize completedRecord = Some 4 /\
  is_Some (compressedUrl completedRecord).
Proof.
  exact (payload_fields_agree (mkState [completedRecord] 80 [] [])
           completedRecord reachable_oneCompleted
           ltac:(apply list_elem_of_here)).
Defined.

(** X3.  In every reachable state, every record of the collection still has
    the original size [processFiles] read from its file, and an id made of
    the file's name, a dash and a timestamp: no later step rewrites them. *)
Theorem intake_fields_kept (s : State) (img : CompressedImage.t) :
  reachable s -> img ∈ images s ->
  originalSize img = File.size (file img) /\
  exists now : Z,
    CompressedImage.id img = File.name (file img) +:+ "-" +:+ pretty now.
Proof.
  apply (reachable_every_image intakeFields).
  - intros q r. split; [reflexivity | now exists (readNow r)].
  - intros q i Hi. exact Hi.
  - intros q i lib Hi. now destruct lib.
Qed.

(** The failed record of [oneFailed] kept its size and its id. *)
Lemma intake_fields_kept_witness :
  originalSize failedRecord = 1000 /\
  exists now : Z, CompressedImage.id failedRecord = "a.jpg" +:+ "-" +:+ pretty now.
Proof.
  exact (intake_fields_kept (mkState [failedRecord] 80 [] []) failedRecord
           reachable_oneFailed ltac:(apply list_elem_of_here)).
Defined.

Lemma messageOr_thrown (n m : string) :
  messageOr ("Failed to compress image: " +:+ n +:+ ". " +:+ m)
  = "Failed to compress image: " +:+ n +:+ ". " +:+ m.
Proof. reflexivity. Qed.

(** X4.  In every reachable state, an error message carried by a record of
    the collection is the message [compressImage] throws for that record's
    file, Failed to compress image: <name>. <cause>; the fallback text of
    the [catch] block in [compressAllImages] never appears. *)
Theorem error_message_is_thrown (s : State) (img : CompressedImage.t)
    (msg : string) :
  reachable s -> img ∈ images s -> error img = Some msg ->
  msg <> "Compression failed" /\
  exists m : string,
    msg = "Failed to compress image: " +:+ File.name (file img) +:+ ". " +:+ m.
Proof.
  intros Hs Himg Hmsg.
  assert (H : thrownMessage img).
  { revert Hs Himg. apply (reachable_every_image thrownMessage).
    - intros q r msg' Hm. discriminate Hm.
    - intros q i Hi. exact Hi.
    - intros q i lib _ msg' Hm. destruct lib as [blob url | m]; simpl in Hm.
      + discriminate Hm.
      + rewrite messageOr_thrown in Hm. injection Hm as <-. now exists m. }
  destruct (H msg Hmsg) as [m ->]. split; [discriminate | now exists m].
Qed.

(** The message of the failed record of [oneFailed]. *)
Lemma error_message_is_thrown_witness :
  exists m : string,
    "Failed to compress image: a.jpg. The file given is not an image"
    = "Failed to compress image: " +:+ "a.jpg" +:+ ". " +:+ m.
Proof.
  exact (proj2 (error_message_is_thrown (mkState [failedRecord] 80 [] [])
                  failedRecord _ reachable_oneFailed
                  ltac:(apply list_elem_of_here) eq_refl)).
Defined.

(** ** The compressing marks *)

Lemma asCompressing_twice (q : Z) (p : CompressedImage.t) :
  asCompressing q (asCompressing q p) = asCompressing q p.
Proof. reflexivity. Qed.

Lemma worksOn_asCompressing (q : Z) (current : list CompressedImage.t)
    (p : CompressedImage.t) :
  worksOn q current (asCompressing q p) = worksOn q current p.
Proof. reflexivity. Qed.

(** X5.  The updaters that one call of [compressAllImages] queues turn into
    compressing records, at the call's quality, exactly the records of the
    collection whose id is the id of a record the call runs [compressImage]
    on; every other record, and the order and number of records, stay as
    they were. *)
Theorem queuedUpdaters_marks (q : Z) (current prev : list CompressedImage.t) :
  queuedUpdaters q current prev =
  map (fun p => if worksOn q current p then asCompressing q p else p) prev.
Proof.
  unfold queuedUpdaters. revert prev.
  induction current as [|img current IH]; intros prev.
  - simpl. induction prev as [|p prev IHp]; [reflexivity|].
    simpl. now rewrite <- IHp.
  - cbn [fold_left]. rewrite IH. clear IH.
    destruct (skipped q img) eqn:Hskip.
    + apply map_ext. intros p. unfold worksOn. simpl. now rewrite Hskip.
    + unfold markCompressing. rewrite map_map. apply map_ext. intros p.
      unfold worksOn at 2. cbn [existsb]. rewrite Hskip. cbn [negb andb].
      fold (worksOn q current p).
      destruct (String.eqb (CompressedImage.id p) (CompressedImage.id img));
        cbn [orb].
      * rewrite worksOn_asCompressing.
        now destruct (worksOn q current p).
      * reflexivity.
Qed.

Lemma sameButStatus_mark (q : Z) (b : bool) (p : CompressedImage.t) :
  sameButStatus p (if b then asCompressing q p else p).
Proof. destruct b; repeat split. Qed.

Lemma ids_queuedUpdaters (q : Z) (current prev : list CompressedImage.t) :
  ids (queuedUpdaters q current prev) = ids prev.
Proof.
  rewrite queuedUpdaters_marks. unfold ids. rewrite map_map.
  apply map_ext. intros p. now destruct (worksOn q current p).
Qed.

(** X6.  When [processFiles] ends its loop, the collection grows by one
    record per file read, after the records it held and in the order of the
    files, each with the id <name>-<timestamp>; the records it held keep
    every field but status and quality. *)
Theorem processFiles_appends (k : nat) (reads : list FileRead) (s s' : State) :
  step (FilesProcessed k reads) s = Some s' ->
  exists c : Closure,
    intakes s !! k = Some c /\
    Forall2 sameButStatus
      (images s ++ newImages (closureQuality c) reads)%list (images s') /\
    ids (images s') =
      (ids (images s) ++
       map (fun r => File.name (readFile r) +:+ "-" +:+ pretty (readNow r))
           reads)%list /\
    length (images s') = (length (images s) + length reads)%nat.
Proof.
  intros Hstep. step_simpl Hstep.
  destruct (intakes s !! k) as [c|] eqn:Hc; step_simpl Hstep; [|discriminate].
  injection Hstep as <-. exists c. split; [reflexivity|]. simpl.
  split; [|split].
  - rewrite queuedUpdaters_marks.
    generalize (images s ++ newImages (closureQuality c) reads)%list as l.
    intros l. induction l as [|p l IH]; constructor; [|exact IH].
    apply sameButStatus_mark.
  - rewrite ids_queuedUpdaters. unfold ids, newImages.
    now rewrite map_app, map_map.
  - rewrite queuedUpdaters_marks, length_map, length_app.
    unfold newImages. now rewrite length_map.
Qed.

(** Three files into the empty collection: three records, in order. *)
Lemma processFiles_appends_witness :
  exists s' : State,
    run intakeThree initial = Some s' /\
    ids (images s') =
      ["a.jpg-1700000000000"; "b.jpg-1700000000001"; "c.jpg-1700000000002"].
Proof.
  destruct (step (FilesProcessed 0 [sampleRead "a.jpg" 1700000000000;
                                    sampleRead "b.jpg" 1700000000001;
                                    sampleRead "c.jpg" 1700000000002])
                 (mkState [] 80 [mkClosure [] 80] [])) as [s'|] eqn:Hstep;
    [|discriminate].
  destruct (processFiles_appends _ _ _ _ Hstep) as (c & _ & _ & Hids & _).
  exists s'. split; [exact Hstep | exact Hids].
Defined.

(** ** What a resolved batch leaves *)

Lemma skipped_true_inv (q : Z) (img : CompressedImage.t) :
  skipped q img = true -> status img = Error /\ quality img = q.
Proof.
  unfold skipped. intros H. apply andb_prop in H as [Hst Hq].
  split; [now apply bool_decide_eq_true in Hst | now apply Z.eqb_eq].
Qed.

(** X7.  When a batch resolves, every record of the collection is completed
    or failed, and every record has the quality of the batch: no record is
    left pending or compressing, whatever other batches are still
    running. *)
Theorem resolved_batch_uniform (s s' : State) (b : nat) (B : Batch) :
  reachable s -> batches s !! b = Some B ->
  step (BatchResolved b) s = Some s' ->
  Forall (fun r => (status r = Completed \/ status r = Error) /\
                   quality r = batchQuality B) (images s').
Proof.
  intros Hs HB Hstep.
  destruct (reachable_stateOk s Hs) as (_ & _ & Hbat).
  pose proof (Forall_lookup_1 _ _ _ _ Hbat HB) as [_ Hres].
  step_simpl Hstep. rewrite HB in Hstep. step_simpl Hstep.
  destruct (allResolved B) as [updatedImages|] eqn:Hall; step_simpl Hstep;
    [|discriminate].
  injection Hstep as <-. simpl.
  apply allResolved_Some in Hall. rewrite Hall in Hres. clear Hall HB Hbat.
  revert Hres. generalize (currentImages B) as current.
  induction updatedImages as [|u us IH]; intros current Hres; [constructor|].
  simpl in Hres. inversion Hres as [|img ? current' ? Hu Hrest]; subst.
  constructor; [|eauto].
  destruct Hu as [[Hskip ->] | [_ [lib ->]]].
  - apply skipped_true_inv in Hskip as [Hst Hq]. auto.
  - destruct (status_settle (batchQuality B) img lib). auto.
Qed.

(** One file, compressed at 80: a completed record at 80. *)
Lemma resolved_batch_uniform_witness :
  Forall (fun r => (status r = Completed \/ status r = Error) /\ quality r = 80)
         [completedRecord].
Proof.
  destruct (run (intakeOne ++ [CompressSettled 0 0 sampleFulfilled]) initial)
    as [s|] eqn:Hrun; [|discriminate].
  pose proof (reachable_run _ _ _ reachable_initial Hrun) as Hs.
  vm_compute in Hrun. injection Hrun as <-.
  exact (resolved_batch_uniform _ _ 0%nat _ Hs eq_refl eq_refl).
Defined.

(** ** Every batch can resolve *)

Lemma run_app (es1 es2 : list Event) (s : State) :
  run (es1 ++ es2) s = run es1 s ≫= run es2.
Proof.
  revert s. induction es1 as [|e es1 IH]; intros s; simpl; [reflexivity|].
  destruct (step e s) as [s1|]; simpl; [apply IH | reflexivity].
Qed.

Lemma settleRest_run (b : nat) (lib : nat -> ImageProcessing.Settled)
    (slots pre : list (option CompressedImage.t)) (s : State) (B : Batch) :
  batches s !! b = Some B ->
  resolved B = (pre ++ slots)%list ->
  length (currentImages B) = length (resolved B) ->
  exists (s1 : State) (B1 : Batch) (done : list CompressedImage.t),
    run (settleRest b (length pre) lib slots) s = Some s1 /\
    batches s1 !! b = Some B1 /\
    currentImages B1 = currentImages B /\
    resolved B1 = (pre ++ map Some done)%list /\
    length done = length slots.
Proof.
  revert pre s B.
  induction slots as [|[u|] slots IH]; intros pre s B HB Hres Hlen.
  - exists s, B, []. simpl. rewrite app_nil_r in Hres. now rewrite app_nil_r.
  - destruct (IH (pre ++ [Some u])%list s B HB) as (s1 & B1 & done & Hrun & HB1 & Hcur & Hres1 & Hdone).
    { now rewrite <- app_assoc. }
    { exact Hlen. }
    rewrite length_app, Nat.add_1_r in Hrun.
    exists s1, B1, (u :: done). simpl. rewrite Hrun.
    repeat split; try assumption.
    + now rewrite Hres1, <- app_assoc.
    + now rewrite Hdone.
  - assert (Hslot : resolved B !! length pre = Some None).
    { rewrite Hres. apply list_lookup_middle. reflexivity. }
    assert (Himg : is_Some (currentImages B !! length pre)).
    { apply lookup_lt_is_Some. rewrite Hlen. apply lookup_lt_is_Some. eauto. }
    destruct Himg as [img Himg].
    set (B' := mkBatch (batchQuality B) (currentImages B)
                 (<[length pre := Some (settle (batchQuality B) img (lib (length pre)))]>
                    (resolved B))).
    set (s2 := mkState (images s) (compressionQuality s) (intakes s)
                 (<[b := B']> (batches s))).
    assert (Hstep : step (CompressSettled b (length pre) (lib (length pre))) s = Some s2).
    { cbn [step]. rewrite HB. simpl. rewrite Himg. simpl. rewrite Hslot.
      reflexivity. }
    assert (Hres' : resolved B' =
             ((pre ++ [Some (settle (batchQuality B) img (lib (length pre)))])
              ++ slots)%list).
    { subst B'. cbn [resolved]. rewrite Hres.
      rewrite insert_app_r_alt by lia. rewrite Nat.sub_diag. simpl.
      now rewrite <- app_assoc. }
    destruct (IH (pre ++ [Some (settle (batchQuality B) img (lib (length pre)))])%list
                s2 B') as (s1 & B1 & done & Hrun & HB1 & Hcur & Hres1 & Hdone).
    { subst s2. cbn [batches]. apply list_lookup_insert_eq.
      apply lookup_lt_is_Some. eauto. }
    { exact Hres'. }
    { subst B'. cbn [currentImages resolved]. now rewrite length_insert. }
    rewrite length_app, Nat.add_1_r in Hrun.
    exists s1, B1, (settle (batchQuality B) img (lib (length pre)) :: done).
    cbn [settleRest run]. rewrite Hstep. simpl. rewrite Hrun.
    repeat split; try assumption.
    + now rewrite Hres1, <- app_assoc.
    + simpl. now rewrite Hdone.
Qed.

(** X8.  A batch of a reachable state never gets stuck: whatever
    [compressImage] settles to for the members still running, once each has
    settled [Promise.all] resolves and the collection is replaced by one
    result per record of [currentImages]. *)
Theorem batch_can_resolve (s : State) (b : nat) (B : Batch)
    (lib : nat -> ImageProcessing.Settled) :
  reachable s -> batches s !! b = Some B ->
  exists s' : State,
    run (settleRest b 0 lib (resolved B) ++ [BatchResolved b]) s = Some s' /\
    length (images s') = length (currentImages B).
Proof.
  intros Hs HB.
  destruct (reachable_stateOk s Hs) as (_ & _ & Hbat).
  pose proof (Forall_lookup_1 _ _ _ _ Hbat HB) as [_ Hres].
  pose proof (Forall2_length _ _ _ Hres) as Hlen.
  destruct (settleRest_run b lib (resolved B) [] s B HB eq_refl Hlen)
    as (s1 & B1 & done & Hrun & HB1 & Hcur & Hres1 & Hdone).
  simpl in Hrun, Hres1.
  rewrite run_app, Hrun. simpl. rewrite HB1. simpl.
  apply allResolved_Some in Hres1. rewrite Hres1. simpl.
  eexists. split; [reflexivity|]. simpl. lia.
Qed.

(** Three files in flight, the first failing and the others succeeding. *)
Lemma batch_can_resolve_witness :
  exists s s' : State,
    run intakeThree initial = Some s /\
    run [CompressSettled 0 0 sampleThrown; CompressSettled 0 1 sampleFulfilled;
         CompressSettled 0 2 sampleFulfilled; BatchResolved 0] s = Some s' /\
    length (images s') = 3%nat.
Proof.
  destruct (run intakeThree initial) as [s|] eqn:Hrun; [|discriminate].
  pose proof (reachable_run _ _ _ reachable_initial Hrun) as Hs.
  vm_compute in Hrun. injection Hrun as <-.
  destruct (batch_can_resolve _ 0%nat _
              (fun i => match i with O => sampleThrown | _ => sampleFulfilled end)
              Hs eq_refl) as (s' & Hrun' & Hlen).
  eexists _, s'. split; [reflexivity|]. split; [exact Hrun' | exact Hlen].
Defined.

(** ** Every intake compresses the whole collection again *)

(** X9.  When [processFiles] ends its loop it starts one batch, at the
    quality its closure holds, over the closure's records followed by the
    new ones, and [compressImage] runs again on every record of the closure
    that is not a failure at that quality: a record already completed at
    that quality is compressed again, also when no file was read. *)
Theorem intake_recompresses (k : nat) (reads : list FileRead) (s s' : State)
    (c : Closure) :
  step (FilesProcessed k reads) s = Some s' -> intakes s !! k = Some c ->
  exists B : Batch,
    batches s' = (batches s ++ [B])%list /\
    batchQuality B = closureQuality c /\
    currentImages B =
      (closureImages c ++ newImages (closureQuality c) reads)%list /\
    forall (i : nat) (img : CompressedImage.t),
      closureImages c !! i = Some img ->
      status img <> Error \/ quality img <> closureQuality c ->
      resolved B !! i = Some None.
Proof.
  intros Hstep Hc. step_simpl Hstep. rewrite Hc in Hstep. step_simpl Hstep.
  injection Hstep as <-. eexists. split; [reflexivity|].
  split; [reflexivity|]. split; [reflexivity|].
  intros i img Hi Hrun.
  rewrite (resolved_startBatch _ _ i img).
  - destruct (skipped (closureQuality c) img) eqn:Hskip; [|reflexivity].
    apply skipped_true_inv in Hskip as [Hst Hq]. now destruct Hrun.
  - now apply lookup_app_l_Some.
Qed.

(** A completed record at 80; an intake that reads no file starts a batch
    in which that record is compressed again. *)
Lemma intake_recompresses_witness :
  exists B : Batch,
    run [IntakeStarted; FilesProcessed 0 []] (mkState [completedRecord] 80 [] [])
    ≫= (fun s' => head (batches s')) = Some B /\
    resolved B = [None].
Proof.
  destruct (intake_recompresses 0 []
              (mkState [completedRecord] 80 [mkClosure [completedRecord] 80] [])
              _ _ eq_refl eq_refl) as (B & Hb & _ & _ & Hall).
  simpl in Hb. injection Hb as <-. eexists. split; reflexivity.
Defined.

(** ** Buttons and thumbnails *)

Lemma downloadAllDisabled_filter (l : list CompressedImage.t) :
  downloadAllDisabled l = true <->
  filter (fun img => status img = Completed) l = [].
Proof.
  induction l as [|img l IH]; [easy|].
  unfold downloadAllDisabled in *. cbn [forallb].
  destruct (decide (status img = Completed)) as [Hst | Hst].
  - rewrite filter_cons_True by exact Hst.
    rewrite bool_decide_eq_true_2 by exact Hst. simpl. split; discriminate.
  - rewrite filter_cons_False by exact Hst.
    rewrite bool_decide_eq_false_2 by exact Hst. simpl. exact IH.
Qed.

(** X10.  Over a reachable collection the Download All button is disabled
    exactly when [handleDownloadAll] would do nothing, and the count in its
    label is the number of records [handleDownloadAll] exports. *)
Theorem download_all_button {Zip} `{ImageProcessing.JSZip Zip} (s : State) :
  reachable s ->
  (downloadAllDisabled (images s) = true <->
   handleDownloadAll (Zip := Zip) (images s) = []) /\
  downloadAllCount (images s) = length (completedImages (images s)).
Proof.
  intros Hs. destruct (reachable_stateOk s Hs) as (Hok & _ & _).
  destruct (completedImages_of_ok (images s) Hok) as (blobs & Hblobs & Heq).
  pose proof (Forall2_length _ _ _ Hblobs) as Hlen.
  assert (Hcount : length (completedImages (images s))
                   = length (filter (fun img => status img = Completed) (images s))).
  { now rewrite Heq, length_zip, <- Hlen, Nat.min_id. }
  split; [|now rewrite Hcount].
  rewrite downloadAllDisabled_filter. unfold handleDownloadAll.
  rewrite Hcount.
  destruct (filter (fun img => status img = Completed) (images s))
    as [|img [|img' done]] eqn:Hdone.
  - simpl. split; reflexivity.
  - simpl. rewrite Heq. destruct blobs as [|blob blobs]; [discriminate Hlen|].
    simpl. split; discriminate.
  - simpl. split; [discriminate|].
    destruct (ImageProcessing.createZip _); discriminate.
Qed.

(** One completed record: the button is enabled and the count is one. *)
Lemma download_all_button_witness :
  downloadAllDisabled [completedRecord] = false /\
  downloadAllCount [completedRecord] = 1%nat.
Proof.
  destruct (download_all_button (H := listZip)
              (mkState [completedRecord] 80 [] []) reachable_oneCompleted)
    as [_ Hcount].
  split; [reflexivity | exact Hcount].
Defined.

(** X11.  On the card of a record of a reachable collection: an enabled
    Download button saves the record's blob under its download name; and a
    compressed thumbnail is shown only for a completed record, with the
    record's own data URL as source, never the placeholder. *)
Theorem card_matches_record (s : State) (img : CompressedImage.t) :
  reachable s -> img ∈ images s ->
  (downloadDisabled img = false ->
   exists blob : Blob,
     compressedBlob img = Some blob /\
     handleDownload img = [Download (downloadName (file img)) blob]) /\
  (forall src : string,
     compressedThumbnail img = CompressedThumbnail src ->
     status img = Completed /\ compressedUrl img = Some src /\ src <> "").
Proof.
  intros Hs Himg. pose proof (reachable_recordOk s img Hs Himg) as Hok.
  unfold recordOk in Hok. split.
  - unfold downloadDisabled. intros Hen. apply negb_false_iff in Hen.
    apply bool_decide_eq_true in Hen. rewrite Hen in Hok.
    destruct Hok as (_ & [blob Hblob] & _). exists blob.
    split; [exact Hblob|]. unfold handleDownload. now rewrite Hblob.
  - intros src. unfold compressedThumbnail.
    destruct (bool_decide (status img = Completed)) eqn:Hst; simpl.
    + apply bool_decide_eq_true in Hst.
      destruct (compressedUrl img) as [u|]; simpl.
      * destruct (String.eqb_spec u ""); simpl.
        -- rewrite bool_decide_eq_false_2 by congruence.
           rewrite bool_decide_eq_false_2 by congruence. discriminate.
        -- intros [= <-]. auto.
      * rewrite bool_decide_eq_false_2 by congruence.
        rewrite bool_decide_eq_false_2 by congruence. discriminate.
    + destruct (bool_decide (status img = Compressing)); [discriminate|].
      destruct (bool_decide (status img = Error)); discriminate.
Qed.

(** The card of the record of [oneCompleted]. *)
Lemma card_matches_record_witness :
  exists blob : Blob,
    compressedBlob completedRecord = Some blob /\
    handleDownload completedRecord = [Download "compressed_a.jpg" blob].
Proof.
  exact (proj1 (card_matches_record (mkState [completedRecord] 80 [] [])
                  completedRecord reachable_oneCompleted
                  ltac:(apply list_elem_of_here)) eq_refl).
Defined.

(** ** More on names, types and sizes *)

(** X12.  A size below 1024 is shown as the whole number of bytes followed
    by Bytes, with no decimal part. *)
Theorem formatBytes_below_1024 (bytes : Z) :
  0 < bytes < 1024 ->
  formatBytes (Some bytes) = pretty bytes +:+ " Bytes".
Proof.
  intros [Hpos Hlt].
  assert (Hall : checkRange 10 0
                   (fun b => (b =? 0) ||
                             String.eqb (formatBytes (Some b))
                                        (pretty b +:+ " Bytes")) = true)
    by (vm_compute; reflexivity).
  pose proof (checkRange_spec _ _ _ Hall bytes ltac:(simpl; lia)) as Hb.
  cbv beta in Hb. destruct (Z.eqb_spec bytes 0) as [->|_]; [lia|].
  now apply String.eqb_eq in Hb.
Qed.

Lemma formatBytes_below_1024_witness :
  formatBytes (Some 1000) = pretty 1000 +:+ " Bytes".
Proof. apply formatBytes_below_1024. lia. Defined.

(** X13.  [removeExtension] cuts at most one suffix, and only a suffix that
    is a dot followed by one or more characters other than dot and slash:
    the name is what it returns followed by that suffix, or is returned
    whole. *)
Theorem removeExtension_cuts_suffix (s : string) :
  exists t : string,
    s = removeExtension s +:+ t /\
    (t = "" \/ ext_matches_here t = true).
Proof.
  induction s as [|c s (t & Heq & Ht)].
  - exists "". split; [reflexivity | now left].
  - cbn [removeExtension].
    destruct (ext_matches_here (String c s)) eqn:Hm.
    + exists (String c s). split; [reflexivity | now right].
    + exists t. split; [|exact Ht].
      change (String c s = String c (removeExtension s +:+ t)).
      now rewrite <- Heq.
Qed.

Lemma prefix_of_eq (p s : string) : s = p -> startsWith p s = true.
Proof.
  intros ->. unfold startsWith. induction p as [|c p IH]; [reflexivity|].
  simpl. destruct (ascii_dec c c); [exact IH | congruence].
Qed.

(** X14.  A file whose type [getFileExtension] maps to jpg, png or webp is
    accepted by the intake filter; the filter, a prefix test, also accepts
    types that [getFileExtension] maps to bin. *)
Theorem known_extension_is_accepted :
  (forall f : File.t,
      ImageProcessing.getFileExtension (File.type f) <> "bin" ->
      accepted f = true) /\
  (exists f : File.t,
      accepted f = true /\
      ImageProcessing.getFileExtension (File.type f) = "bin").
Proof.
  split.
  - intros f. unfold ImageProcessing.getFileExtension, accepted.
    destruct (String.eqb_spec (File.type f) "image/jpeg") as [Hj|_].
    { intros _. now rewrite (prefix_of_eq _ _ Hj). }
    destruct (String.eqb_spec (File.type f) "image/png") as [Hp|_].
    { intros _. rewrite (prefix_of_eq _ _ Hp). apply orb_true_iff.
      left. apply orb_true_r. }
    destruct (String.eqb_spec (File.type f) "image/webp") as [Hw|_].
    { intros _. rewrite (prefix_of_eq _ _ Hw). apply orb_true_r. }
    congruence.
  - exists (File.mk "scan.jpg" "image/jpeg;version=2" 10). split; reflexivity.
Qed.

Lemma known_extension_is_accepted_witness :
  accepted (File.mk "icon.png" "image/png" 10) = true.
Proof.
  apply (proj1 known_extension_is_accepted). discriminate.
Defined.

(** ** Intake never passes a rejected file *)

Lemma processEntry_sound (entry : FileSystemEntry) :
  Forall (fun f => accepted f = true) (processEntry entry) /\
  sublist (processEntry entry) (filesUnder entry).
Proof.
  revert entry. fix IH 1. intros [f | reads].
  - simpl. destruct (accepted f) eqn:Hf.
    + split; [now repeat constructor | reflexivity].
    + split; [constructor | apply sublist_nil_l].
  - destruct reads as [|entries later].
    + split; [constructor | constructor].
    + cbn [processEntry filesUnder].
      match goal with
      | |- _ /\ sublist _ (?mine ++ ?rest)%list =>
          enough (Forall (fun f => accepted f = true)
                         ((fix each (l : list FileSystemEntry) : list File.t :=
                             match l with
                             | [] => []
                             | subEntry :: l' => (processEntry subEntry ++ each l')%list
                             end) entries) /\
                  sublist ((fix each (l : list FileSystemEntry) : list File.t :=
                              match l with
                              | [] => []
                              | subEntry :: l' => (processEntry subEntry ++ each l')%list
                              end) entries) mine)
            as [Hacc Hsub];
          [split; [exact Hacc | now apply sublist_inserts_r] |]
      end.
      induction entries as [|subEntry entries IHentries].
      * split; constructor.
      * destruct (IH subEntry) as [Hacc Hsub].
        destruct IHentries as [Haccs Hsubs].
        split; [apply Forall_app; now split | now apply sublist_app].
Qed.

(** X15.  Whatever is dropped or selected, every file that [handleDrop] or
    [handleFileSelect] passes to [processFiles] has a type the MIME test
    accepts. *)
Theorem intake_passes_only_accepted :
  (forall droppedItems : list DataTransferItem,
      Forall (fun f => accepted f = true) (droppedFiles droppedItems)) /\
  (forall files : list File.t,
      Forall (fun f => accepted f = true) (selectedFiles files)).
Proof.
  split.
  - intros items. unfold droppedFiles.
    induction items as [|item items IH]; [constructor|].
    simpl. apply Forall_app. split; [|exact IH].
    destruct (String.eqb (kind item) "file"); [|constructor].
    destruct (webkitGetAsEntry item) as [entry|].
    + apply processEntry_sound.
    + destruct (getAsFile item) as [f|]; [|constructor].
      destruct (accepted f) eqn:Hf; now repeat constructor.
  - intros files. unfold selectedFiles. rewrite List.Forall_forall.
    intros f Hf. now apply List.filter_In in Hf.
Qed.

(** X16.  The files [processEntry] pushes for an entry are files found
    under that entry, each at most once and in reading order. *)
Theorem processEntry_sublist (entry : FileSystemEntry) :
  sublist (processEntry entry) (filesUnder entry).
Proof. apply processEntry_sound. Qed.

(** ** The service worker *)

(** X17.  Whatever the network answers, a [fetch] event leaves the caches
    as they were or puts one response into the cache litepress-cache-v1:
    a response the network gave, with status 200 and type basic, for a
    request that no cache matched, the one it also responds with.  It
    deletes nothing and stores no other response. *)
Theorem fetch_stores_only_good_responses {Caches}
    `{ServiceWorker.CacheStorage Caches}
    (network : ServiceWorker.Request -> ServiceWorker.Fetched)
    (request : ServiceWorker.Request) (caches : Caches) :
  snd (ServiceWorker.onFetch network request caches) = caches \/
  exists response : ServiceWorker.Response,
    ServiceWorker.cachesMatch request caches = None /\
    network request = ServiceWorker.NetworkResponse response /\
    ServiceWorker.status response = 200 /\
    ServiceWorker.type response = "basic" /\
    ServiceWorker.onFetch network request caches =
      (Some response,
       ServiceWorker.cachePut ServiceWorker.CACHE_NAME request response caches).
Proof.
  unfold ServiceWorker.onFetch.
  destruct (ServiceWorker.cachesMatch request caches) as [hit|]; [now left|].
  destruct (network request) as [response|]; [|now left].
  destruct (Z.eqb_spec (ServiceWorker.status response) 200) as [H200|_];
    [|now left].
  destruct (String.eqb_spec (ServiceWorker.type response) "basic") as [Hb|_];
    [|now left].
  right. exists response. simpl. auto.
Qed.

(** X18.  Cache first: a request that a cache matches is answered with the
    match, whatever the network does, and the caches stay as they are.  And
    with a cache storage in which a [put] for a GET request that had no
    match makes the request match the response put: after a GET request
    missed and the network answered 200 and basic, the same request is
    answered with that response also when the network is gone. *)
Theorem fetch_cache_first {Caches} `{ServiceWorker.CacheStorage Caches}
    (put_match :
       forall n request response (caches : Caches),
         ServiceWorker.method request = "GET" ->
         ServiceWorker.cachesMatch request caches = None ->
         ServiceWorker.cachesMatch request
           (ServiceWorker.cachePut n request response caches) = Some response)
    (request : ServiceWorker.Request) (caches : Caches) :
  (forall hit network,
      ServiceWorker.cachesMatch request caches = Some hit ->
      ServiceWorker.onFetch network request caches = (Some hit, caches)) /\
  (forall network response,
      ServiceWorker.method request = "GET" ->
      ServiceWorker.cachesMatch request caches = None ->
      network request = ServiceWorker.NetworkResponse response ->
      ServiceWorker.status response = 200 ->
      ServiceWorker.type response = "basic" ->
      forall later,
        ServiceWorker.onFetch later request
          (snd (ServiceWorker.onFetch network request caches))
        = (Some response, snd (ServiceWorker.onFetch network request caches))).
Proof.
  split.
  - intros hit network Hhit. unfold ServiceWorker.onFetch. now rewrite Hhit.
  - intros network response Hget Hmiss Hnet H200 Hbasic later.
    assert (Hfirst : ServiceWorker.onFetch network request caches =
              (Some response,
               ServiceWorker.cachePut ServiceWorker.CACHE_NAME request response
                 caches)).
    { unfold ServiceWorker.onFetch. now rewrite Hmiss, Hnet, H200, Hbasic. }
    rewrite Hfirst. simpl. unfold ServiceWorker.onFetch.
    now rewrite (put_match _ _ response _ Hget Hmiss).
Qed.

Lemma storeMatch_put (n : string) (request : ServiceWorker.Request)
    (response : ServiceWorker.Response) (st : ServiceWorker.Store) :
  ServiceWorker.method request = "GET" ->
  ServiceWorker.storeMatch request st = None ->
  ServiceWorker.storeMatch request (ServiceWorker.storePut n request response st)
  = Some response.
Proof.
  unfold ServiceWorker.storeMatch, ServiceWorker.storePut.
  intros ->. simpl. intros Hmiss.
  destruct (find _ (ServiceWorker.entries st)) as [e|] eqn:Hfind;
    [discriminate|]. clear Hmiss.
  induction (ServiceWorker.entries st) as [|e l IH]; simpl.
  - now rewrite String.eqb_refl.
  - simpl in Hfind.
    destruct (String.eqb (snd (fst e)) (ServiceWorker.url request)) eqn:He;
      [discriminate|].
    rewrite andb_false_r. simpl. rewrite He. now apply IH.
Qed.

(** The first request for the page goes to the network; the second is
    answered from the cache with the network gone. *)
Lemma fetch_cache_first_witness :
  let request := ServiceWorker.mkRequest "GET" "/" in
  let caches := ServiceWorker.mkStore [] [] in
  ServiceWorker.onFetch (H := ServiceWorker.storeCaches) ServiceWorker.offline
    request
    (snd (ServiceWorker.onFetch (H := ServiceWorker.storeCaches)
            ServiceWorker.sampleNetwork request caches))
  = (Some ServiceWorker.sampleShell,
     snd (ServiceWorker.onFetch (H := ServiceWorker.storeCaches)
            ServiceWorker.sampleNetwork request caches)).
Proof.
  exact (proj2 (fetch_cache_first (H := ServiceWorker.storeCaches)
                  storeMatch_put
                  (ServiceWorker.mkRequest "GET" "/")
                  (ServiceWorker.mkStore [] []))
           ServiceWorker.sampleNetwork ServiceWorker.sampleShell
           eq_refl eq_refl eq_refl eq_refl eq_refl ServiceWorker.offline).
Defined.

Lemma keys_after_deletes {Caches} `{ServiceWorker.CacheStorage Caches}
    (keys_delete :
       forall n (caches : Caches),
         ServiceWorker.cachesKeys (ServiceWorker.cachesDelete n caches)
         = filter (fun k => k <> n) (ServiceWorker.cachesKeys caches))
    (l : list string) (caches : Caches) :
  ServiceWorker.cachesKeys
    (fold_left
       (fun st cacheName =>
          if negb (existsb (String.eqb cacheName) ServiceWorker.cacheWhitelist)
          then ServiceWorker.cachesDelete cacheName st else st)
       l caches)
  = filter (fun k => k = ServiceWorker.CACHE_NAME \/ k ∉ l)
           (ServiceWorker.cachesKeys caches).
Proof.
  revert caches. induction l as [|n l IH]; intros caches.
  - simpl. symmetry. induction (ServiceWorker.cachesKeys caches) as [|k ks IHk];
      [reflexivity|].
    rewrite filter_cons_True by (right; apply not_elem_of_nil).
    now rewrite IHk.
  - cbn [fold_left]. rewrite IH. clear IH.
    unfold ServiceWorker.cacheWhitelist. cbn [existsb]. rewrite orb_false_r.
    destruct (String.eqb_spec n ServiceWorker.CACHE_NAME) as [-> | Hn]; simpl.
    + apply list_filter_iff. intros k. rewrite not_elem_of_cons.
      split; [intros [-> | Hk] | intros [-> | [_ Hk]]]; auto.
      destruct (decide (k = ServiceWorker.CACHE_NAME)); auto.
    + rewrite keys_delete, list_filter_filter. apply list_filter_iff.
      intros k. rewrite not_elem_of_cons. split.
      * intros [[-> | Hk] Hkn]; auto.
      * intros [-> | [Hkn Hk]]; split; auto.
Qed.

Lemma filter_iff_on {A} (P Q : A -> Prop) `{!forall x, Decision (P x)}
    `{!forall x, Decision (Q x)} (l : list A) :
  (forall x, x ∈ l -> (P x <-> Q x)) -> filter P l = filter Q l.
Proof.
  induction l as [|x l IH]; intros Hl; [reflexivity|].
  assert (Hx : P x <-> Q x) by (apply Hl; left).
  assert (Hrest : filter P l = filter Q l).
  { apply IH. intros y Hy. apply Hl. now right. }
  destruct (decide (P x)) as [HP | HP].
  - rewrite !filter_cons_True by tauto. now rewrite Hrest.
  - rewrite !filter_cons_False by tauto. exact Hrest.
Qed.

(** X19.  With a cache storage in which deleting a cache removes its name
    from [caches.keys()] and no other: after the [activate] listener has
    run, the only cache name left is litepress-cache-v1, and it is left if
    it was there. *)
Theorem activate_keeps_only_current {Caches} `{ServiceWorker.CacheStorage Caches}
    (keys_delete :
       forall n (caches : Caches),
         ServiceWorker.cachesKeys (ServiceWorker.cachesDelete n caches)
         = filter (fun k => k <> n) (ServiceWorker.cachesKeys caches))
    (caches : Caches) :
  ServiceWorker.cachesKeys (ServiceWorker.onActivate caches)
  = filter (fun k => k = ServiceWorker.CACHE_NAME)
           (ServiceWorker.cachesKeys caches).
Proof.
  unfold ServiceWorker.onActivate.
  rewrite (keys_after_deletes keys_delete).
  apply filter_iff_on. intros k Hk.
  split; [intros [-> | Hnot]; [reflexivity | contradiction] | auto].
Qed.

(** Two caches of earlier versions beside the current one. *)
Lemma activate_keeps_only_current_witness :
  ServiceWorker.names
    (ServiceWorker.onActivate (H := ServiceWorker.storeCaches)
       (ServiceWorker.mkStore
          ["litepress-cache-v0"; "litepress-cache-v1"; "other-cache"] []))
  = ["litepress-cache-v1"].
Proof.
  exact (activate_keeps_only_current (H := ServiceWorker.storeCaches)
           (fun n caches => eq_refl)
           (ServiceWorker.mkStore
              ["litepress-cache-v0"; "litepress-cache-v1"; "other-cache"] [])).
Defined.

(** * Quality change, removal and export revisited *)

(** ** The collection after a quality change *)

Example run_intakeOne :
  exists s : State,
    run intakeOne initial = Some s /\
    compressionQuality s = 80 /\ length (batches s) = 1%nat.
Proof. eexists. repeat split. Qed.






(** ** Removal of a record whose id is not its own *)

(** C7.  Two files named photo.jpg whose [Date.now()] values agree get the
    same id, and [handleRemoveImage] with that id, called from the card of
    either record, empties the collection. *)
Theorem handleRemoveImage_deletes_twins :
  exists s s' : State,
    run intakeTwins initial = Some s /\
    ids (images s) = ["photo.jpg-1700000000000"; "photo.jpg-1700000000000"] /\
    step (RemoveImage "photo.jpg-1700000000000") s = Some s' /\
    images s' = [].
Proof. eexists _, _. repeat split. Qed.

(** ** Export of records whose download names agree *)

Lemma archiveOf_createZip (files : list (string * Blob)) :
  ImageProcessing.createZip (H := mapZip) files
  = Some (concat (map snd (map_to_list (archiveOf files)))).
Proof. reflexivity. Qed.

(** C5.  Two completed records whose files are both named IMG_0001.jpg:
    [handleDownloadAll] hands [createZip] two entries of one name, the
    second replaces the first in the archive, and the archive offered for
    download holds one entry, the second record's payload; the first
    record's payload is not in it. *)
Theorem handleDownloadAll_same_name :
  exists s : State,
    run sameNameRun initial = Some s /\
    map snd (completedImages (images s)) = [sampleBlob; otherBlob] /\
    filesToZip (completedImages (images s))
      = [("compressed_IMG_0001.jpg", sampleBlob);
         ("compressed_IMG_0001.jpg", otherBlob)] /\
    map_to_list (archiveOf (filesToZip (completedImages (images s))))
      = [("compressed_IMG_0001.jpg", otherBlob)] /\
    handleDownloadAll (H := mapZip) (images s)
      = [Download "LitePress_Compressed_Images.zip" otherBlob].
Proof.
  eexists. split; [reflexivity|]. split; [reflexivity|].
  split; [reflexivity|]. split; vm_compute; reflexivity.
Qed.

(** ** Export of records whose download names differ *)




